(** * Chain tracker: block window, fork detection, window repair, backoff

  A shallow embedding of [protocol/chaintracker] (the [ChainTracker] of
  lavanet/lava) and the properties of its block window.

  - Go's [int64], [uint64] and [time.Duration] are [Z] with the
    wrap-around of every arithmetic operation written out ([Int64]).
  - The remote node is the [ChainFetcher] interface: a type class over
    an arbitrary remote state, so a remote may answer differently on
    every call.
  - Tracker methods are computations in [M]: they thread a [World]
    (remote state, tracker fields, chronological event trace) and end in
    a [result]: a value, a Go [error], or a run-time panic.
  - Calls to the remote, the two callbacks and [utils.LavaFormatError]
    (the error sink) are recorded in the trace; debug logging, the
    mutexes and the gRPC front end are not modelled (the poll goroutine
    is the only writer of the window). *)

From stdpp Require Import base tactics option list list_numbers strings.
From Stdlib Require Import ZArith Lia.

#[local] Open Scope Z_scope.

(** ** Machine integers *)

Module Int64.
Definition min_int : Z := - 2 ^ 63.
Definition max_int : Z := 2 ^ 63 - 1.

(** Two's complement reduction into [[-2^63, 2^63)]. *)
Definition wrap (z : Z) : Z := (z + 2 ^ 63) mod 2 ^ 64 - 2 ^ 63.

Definition in_range (z : Z) : Prop := min_int <= z <= max_int.

Definition add (a b : Z) : Z := wrap (a + b).
Definition sub (a b : Z) : Z := wrap (a - b).
Definition mul (a b : Z) : Z := wrap (a * b).

(** The conversion [int64(u)] of a [uint64]. *)
Definition of_uint64 (u : Z) : Z := wrap u.
End Int64.

Module Uint64.
Definition wrap (z : Z) : Z := z mod 2 ^ 64.
Definition in_range (z : Z) : Prop := 0 <= z < 2 ^ 64.
Definition add (a b : Z) : Z := wrap (a + b).

(** The conversion [uint64(i)] of an [int64]. *)
Definition of_int64 (i : Z) : Z := wrap i.
End Uint64.

(** ** Constants *)

Definition initRetriesCount : nat := 4.

(** [time.Duration] counts nanoseconds. *)
Definition Minute : Z := 60 * 1000000000.
Definition BACKOFF_MAX_TIME : Z := 10 * Minute.

(** ** Data *)

Record BlockStore := { Block : Z; Hash : string }.

(** The errors the tracker builds (one constructor per message of the
  source), and [ErrFetcher] for whatever the remote returns. *)
Inductive error :=
| ErrFetcher (msg : string)
| ErrorFailedToFetchTooEarlyBlock (requested latest memory : Z)
| ErrOlderThanCurrent (latestBlock currentLatestBlock : Z)
| ErrCouldNotGetBlockData (block : Z) (cause : error)
| ErrDidntSaveEnoughBlocks (blocksQueueLen : Z)
| ErrMismatchingBlock (block : Z) (existing : BlockStore)
| ErrNotEnoughBlocks (block : Z) (existing : BlockStore) (overwriteElements : Z)
| ErrCouldNotFetchLatestBlockNum (cause : error)
| ErrCouldNotFetchLatestBlockHash (block : Z) (cause : error)
| ErrCriticalInit (cause : error)
| ErrFailedToFetchAllPrevious (cause : error) (fetchFails : Z).

Inductive result (A : Type) :=
| Ok (a : A)
| Err (e : error)
| Panic
| OutOfFuel.
Arguments Ok {A} a.
Arguments Err {A} e.
Arguments Panic {A}.
Arguments OutOfFuel {A}.

Inductive event :=
| EvFetchLatestBlockNum (res : result Z)
| EvFetchBlockHashByNum (blockNum : Z) (res : result string)
| EvNewLatestCallback (block : Z) (hash : string)
| EvForkCallback (block : Z)
| EvLogError (e : error).

(** The fields of the [ChainTracker] struct. The two callbacks are
  represented by whether they are configured (non-nil); calling one is
  an event. [ticker] is the period of the current [time.Ticker]. *)
Record ChainTracker := {
blocksToSave : Z;
latestBlockNum : Z;
blocksQueue : list BlockStore;
forkCallback : bool;
newLatestCallback : bool;
serverBlockMemory : Z;
blockCheckpointDistance : Z;
blockCheckpoint : Z;
ticker : Z
}.

Definition set_latestBlockNum (v : Z) (cs : ChainTracker) : ChainTracker :=
{| blocksToSave := blocksToSave cs; latestBlockNum := v;
   blocksQueue := blocksQueue cs; forkCallback := forkCallback cs;
   newLatestCallback := newLatestCallback cs;
   serverBlockMemory := serverBlockMemory cs;
   blockCheckpointDistance := blockCheckpointDistance cs;
   blockCheckpoint := blockCheckpoint cs; ticker := ticker cs |}.

Definition set_blocksQueue (q : list BlockStore) (cs : ChainTracker) : ChainTracker :=
{| blocksToSave := blocksToSave cs; latestBlockNum := latestBlockNum cs;
   blocksQueue := q; forkCallback := forkCallback cs;
   newLatestCallback := newLatestCallback cs;
   serverBlockMemory := serverBlockMemory cs;
   blockCheckpointDistance := blockCheckpointDistance cs;
   blockCheckpoint := blockCheckpoint cs; ticker := ticker cs |}.

Definition set_blockCheckpoint (v : Z) (cs : ChainTracker) : ChainTracker :=
{| blocksToSave := blocksToSave cs; latestBlockNum := latestBlockNum cs;
   blocksQueue := blocksQueue cs; forkCallback := forkCallback cs;
   newLatestCallback := newLatestCallback cs;
   serverBlockMemory := serverBlockMemory cs;
   blockCheckpointDistance := blockCheckpointDistance cs;
   blockCheckpoint := v; ticker := ticker cs |}.

Definition set_ticker (v : Z) (cs : ChainTracker) : ChainTracker :=
{| blocksToSave := blocksToSave cs; latestBlockNum := latestBlockNum cs;
   blocksQueue := blocksQueue cs; forkCallback := forkCallback cs;
   newLatestCallback := newLatestCallback cs;
   serverBlockMemory := serverBlockMemory cs;
   blockCheckpointDistance := blockCheckpointDistance cs;
   blockCheckpoint := blockCheckpoint cs; ticker := v |}.

(** ** The remote node *)

(** The [ChainFetcher] interface over a remote state [R]. The results are
  Go [int64] and [string] values; [FetchEndpoint] only feeds log
  attributes and is left out. *)
Class ChainFetcher (R : Type) := {
FetchLatestBlockNum : R -> result Z * R;
FetchBlockHashByNum : R -> Z -> result string * R;
FetchLatestBlockNum_int64 :
  forall r n r', FetchLatestBlockNum r = (Ok n, r') -> Int64.in_range n
}.

(** ** Go slices as lists *)

(** [make([]BlockStore, n)]: [n] zero values; panics on a negative length. *)
Definition make (n : Z) : result (list BlockStore) :=
if n <? 0 then Panic
else Ok (replicate (Z.to_nat n) {| Block := 0; Hash := "" |}).

(** [l[s:e]]. Go checks [0 <= s <= e <= cap(l)]; capacities are not
  modelled and the bound is the length: the only slicing of the window
  has [e <= len] (lemma [hashesOverlapIndexes_spec]). *)
Definition slice {A} (l : list A) (s e : Z) : result (list A) :=
if (0 <=? s) && (s <=? e) && (e <=? Z.of_nat (length l))
then Ok (take (Z.to_nat (e - s)) (drop (Z.to_nat s) l))
else Panic.

(** [l[s:]]. *)
Definition slice_from {A} (l : list A) (s : Z) : result (list A) :=
if (0 <=? s) && (s <=? Z.of_nat (length l))
then Ok (drop (Z.to_nat s) l)
else Panic.

(** [l[i]]. *)
Definition index {A} (l : list A) (i : Z) : result A :=
if (0 <=? i) && (i <? Z.of_nat (length l))
then match l !! Z.to_nat i with Some x => Ok x | None => Panic end
else Panic.

(** [l[i] = x]. *)
Definition store {A} (l : list A) (i : Z) (x : A) : result (list A) :=
if (0 <=? i) && (i <? Z.of_nat (length l))
then Ok (<[Z.to_nat i := x]> l)
else Panic.

(** ** The tracker *)

Section Tracker.
Context {R : Type} {fetcher : ChainFetcher R}.

Record World := {
  remote : R;
  tracker : ChainTracker;
  trace : list event
}.

Definition M (A : Type) : Type := World -> result A * World.

Definition ret {A} (a : A) : M A := fun w => (Ok a, w).

(** Sequencing. An error is handed on unchanged: this is used where the
    source writes [if err != nil { return err }]. *)
Definition bind {A B} (m : M A) (k : A -> M B) : M B := fun w =>
  match m w with
  | (Ok a, w') => k a w'
  | (Err e, w') => (Err e, w')
  | (Panic, w') => (Panic, w')
  | (OutOfFuel, w') => (OutOfFuel, w')
  end.

(** The source's [if err != nil { return wrap(err) }]. *)
Definition bind_wrap {A B} (m : M A) (wrap : error -> M B) (k : A -> M B) : M B :=
  fun w =>
    match m w with
    | (Ok a, w') => k a w'
    | (Err e, w') => wrap e w'
    | (Panic, w') => (Panic, w')
    | (OutOfFuel, w') => (OutOfFuel, w')
    end.

Definition lift {A} (r : result A) : M A := fun w => (r, w).

Definition emit (ev : event) : M unit := fun w =>
  (Ok tt, {| remote := remote w; tracker := tracker w; trace := trace w ++ [ev] |}).

Definition get : M ChainTracker := fun w => (Ok (tracker w), w).

Definition modify (f : ChainTracker -> ChainTracker) : M unit := fun w =>
  (Ok tt, {| remote := remote w; tracker := f (tracker w); trace := trace w |}).

Notation "'let*' x ':=' m 'in' k" := (bind m (fun x => k))
  (at level 10, x name, m at level 100, k at level 200).
Notation "'let*' ' pat ':=' m 'in' k" :=
  (bind m (fun x => match x with pat => k end))
  (at level 10, pat pattern, m at level 100, k at level 200).
Notation "m >>> k" := (bind m (fun _ => k))
  (at level 100, k at level 200, right associativity).

(** [utils.LavaFormatError]: reports to the error sink, returns the error. *)
Definition LavaFormatError {A} (e : error) : M A := fun w =>
  (Err e, {| remote := remote w; tracker := tracker w;
             trace := trace w ++ [EvLogError e] |}).

(** The same call where the source drops the returned error. *)
Definition LavaFormatError_ (e : error) : M unit := emit (EvLogError e).

(** *** Window accessors *)

Definition getLatestBlockUnsafe (cs : ChainTracker) : BlockStore :=
  match last (blocksQueue cs) with
  | Some b => b
  | None => {| Block := 0; Hash := "BAD-HASH" |}
  end.

Definition GetLatestBlockNum (cs : ChainTracker) : Z := latestBlockNum cs.

Definition setLatestBlockNum (value : Z) : M unit :=
  modify (set_latestBlockNum value).

(** *** Calls to the remote *)

Definition fetchLatestBlockNum : M Z := fun w =>
  let '(res, r') := FetchLatestBlockNum (remote w) in
  (res, {| remote := r'; tracker := tracker w;
           trace := trace w ++ [EvFetchLatestBlockNum res] |}).

Definition chainFetcher_FetchBlockHashByNum (blockNum : Z) : M string := fun w =>
  let '(res, r') := FetchBlockHashByNum (remote w) blockNum in
  (res, {| remote := r'; tracker := tracker w;
           trace := trace w ++ [EvFetchBlockHashByNum blockNum res] |}).

Definition fetchBlockHashByNum (blockNum : Z) : M string :=
  let* cs := get in
  if blockNum <? Int64.sub (GetLatestBlockNum cs) (Int64.of_uint64 (serverBlockMemory cs))
  then lift (Err (ErrorFailedToFetchTooEarlyBlock
                    blockNum (GetLatestBlockNum cs) (serverBlockMemory cs)))
  else chainFetcher_FetchBlockHashByNum blockNum.

(** *** The overlap test *)

Definition hashesOverlapIndexes (readIndexDiff newQueueIdx fetchedBlockNum : Z)
    (newHashForBlock : string) : M (bool * Z * Z * Z) :=
  let* cs := get in
  let savedBlocks := Z.of_nat (length (blocksQueue cs)) in
  if readIndexDiff >=? savedBlocks then ret (false, 0, 0, 0)
  else
    let blocksQueueEnd := Int64.add (Int64.sub savedBlocks 1) readIndexDiff in
    let blocksQueueIdx := Int64.sub blocksQueueEnd newQueueIdx in
    if (0 <? blocksQueueIdx) && (blocksQueueIdx <=? Int64.sub savedBlocks 1) then
      let* existingBlockStore := lift (index (blocksQueue cs) blocksQueueIdx) in
      if negb (Block existingBlockStore =? fetchedBlockNum) then
        LavaFormatError_ (ErrMismatchingBlock fetchedBlockNum existingBlockStore) >>>
        ret (false, 0, 0, 0)
      else if String.eqb (Hash existingBlockStore) newHashForBlock then
        let overwriteElements := Int64.add blocksQueueIdx 1 in
        if (overwriteElements <?
              Int64.sub (Int64.sub (Int64.of_uint64 (blocksToSave cs)) 1) newQueueIdx)
           || (readIndexDiff >? overwriteElements)
        then
          LavaFormatError_
            (ErrNotEnoughBlocks fetchedBlockNum existingBlockStore overwriteElements) >>>
          ret (false, 0, 0, 0)
        else
          ret (true, readIndexDiff, overwriteElements,
               Int64.sub overwriteElements readIndexDiff)
      else ret (false, 0, 0, 0)
    else ret (false, 0, 0, 0).

(** *** The backwards scan *)

(** The state of the loop of [readHashes] when it is left: the index
    [idx], whether it was left by [break], the three indexes and the new
    queue (a slice the caller shares, written in place). *)
Record scan := {
  scan_idx : Z;
  scan_foundOverlap : bool;
  scan_blocksQueueStartIndex : Z;
  scan_blocksQueueEndIndex : Z;
  scan_newQueueStartIndex : Z;
  scan_newBlocksQueue : list BlockStore
}.

(** [for idx := int64(0); idx < int64(cs.blocksToSave); idx++]: [todo]
    counts the iterations left, [int64(cs.blocksToSave) - idx]. *)
Fixpoint readHashes_loop (todo : nat) (idx latestBlock readIndexDiff : Z)
    (blocksQueueStartIndex blocksQueueEndIndex newQueueStartIndex : Z)
    (newBlocksQueue : list BlockStore) : M scan :=
  match todo with
  | O => ret {| scan_idx := idx; scan_foundOverlap := false;
                scan_blocksQueueStartIndex := blocksQueueStartIndex;
                scan_blocksQueueEndIndex := blocksQueueEndIndex;
                scan_newQueueStartIndex := newQueueStartIndex;
                scan_newBlocksQueue := newBlocksQueue |}
  | S todo' =>
    let blockNumToFetch := Int64.sub latestBlock idx in
    bind_wrap (fetchBlockHashByNum blockNumToFetch)
      (fun err => LavaFormatError (ErrCouldNotGetBlockData blockNumToFetch err))
      (fun newHashForBlock =>
         let* '(foundOverlap, blocksQueueStartIndex, blocksQueueEndIndex, newQueueStartIndex) :=
           hashesOverlapIndexes readIndexDiff idx blockNumToFetch newHashForBlock in
         if foundOverlap then
           ret {| scan_idx := idx; scan_foundOverlap := true;
                  scan_blocksQueueStartIndex := blocksQueueStartIndex;
                  scan_blocksQueueEndIndex := blocksQueueEndIndex;
                  scan_newQueueStartIndex := newQueueStartIndex;
                  scan_newBlocksQueue := newBlocksQueue |}
         else
           let* cs := get in
           let* newBlocksQueue :=
             lift (store newBlocksQueue
                     (Int64.sub (Int64.sub (Int64.of_uint64 (blocksToSave cs)) 1) idx)
                     {| Block := blockNumToFetch; Hash := newHashForBlock |}) in
           readHashes_loop todo' (Int64.add idx 1) latestBlock readIndexDiff
             blocksQueueStartIndex blocksQueueEndIndex newQueueStartIndex newBlocksQueue)
  end.

Definition readHashes (latestBlock : Z)
    (blocksQueueStartIndex blocksQueueEndIndex newQueueStartIndex readIndexDiff : Z)
    (newBlocksQueue : list BlockStore) : M (Z * Z * Z * list BlockStore) :=
  let* cs := get in
  let* sc := readHashes_loop (Z.to_nat (Int64.of_uint64 (blocksToSave cs))) 0
          latestBlock readIndexDiff
          blocksQueueStartIndex blocksQueueEndIndex newQueueStartIndex newBlocksQueue in
  ret (scan_blocksQueueStartIndex sc, scan_blocksQueueEndIndex sc,
       scan_newQueueStartIndex sc, scan_newBlocksQueue sc).

(** *** The write *)

Definition replaceBlocksQueue (latestBlock newQueueStartIndex : Z)
    (blocksQueueStartIndex blocksQueueEndIndex : Z)
    (newBlocksQueue : list BlockStore) (blocksCopied : Z) : M (Z * Z * string) :=
  setLatestBlockNum latestBlock >>>
  let* blocksCopied :=
    (if newQueueStartIndex >? 0 then
       let* cs := get in
       let* kept := lift (slice (blocksQueue cs) blocksQueueStartIndex blocksQueueEndIndex) in
       let* tail := lift (slice_from newBlocksQueue newQueueStartIndex) in
       modify (set_blocksQueue (kept ++ tail)) >>>
       ret (Int64.sub blocksQueueEndIndex blocksQueueStartIndex)
     else
       modify (set_blocksQueue newBlocksQueue) >>>
       ret blocksCopied) in
  let* cs := get in
  let blocksQueueLen := Z.of_nat (length (blocksQueue cs)) in
  let latestHash := Hash (getLatestBlockUnsafe cs) in
  ret (blocksCopied, blocksQueueLen, latestHash).

(** *** The repair *)

Definition fetchAllPreviousBlocks (latestBlock : Z) : M string :=
  let* cs := get in
  let* newBlocksQueue := lift (make (Int64.of_uint64 (blocksToSave cs))) in
  let currentLatestBlock := GetLatestBlockNum cs in
  if latestBlock <? currentLatestBlock then
    LavaFormatError (ErrOlderThanCurrent latestBlock currentLatestBlock)
  else
    let readIndexDiff := Int64.sub latestBlock currentLatestBlock in
    let* '(blocksQueueStartIndex, blocksQueueEndIndex, newQueueStartIndex, newBlocksQueue) :=
      readHashes latestBlock 0 0 0 readIndexDiff newBlocksQueue in
    let blocksCopied := Int64.of_uint64 (blocksToSave cs) in
    let* '(blocksCopied, blocksQueueLen, latestHash) :=
      replaceBlocksQueue latestBlock newQueueStartIndex
        blocksQueueStartIndex blocksQueueEndIndex newBlocksQueue blocksCopied in
    if blocksQueueLen <? blocksToSave cs then
      LavaFormatError (ErrDidntSaveEnoughBlocks blocksQueueLen)
    else
      let* cs' := get in
      (if (readIndexDiff >? 1)
          || (Uint64.add (blockCheckpoint cs') (blockCheckpointDistance cs')
                <? Uint64.of_int64 latestBlock)
       then modify (set_blockCheckpoint (Uint64.of_int64 latestBlock))
       else ret tt) >>>
      ret latestHash.

(** *** Fork detection *)

Definition forkChanged (newLatestBlock : Z) : M bool :=
  let* cs := get in
  if newLatestBlock =? GetLatestBlockNum cs then
    let* hash := fetchBlockHashByNum newLatestBlock in
    let* cs := get in
    let latestBlockSaved := getLatestBlockUnsafe cs in
    ret (negb (String.eqb (Hash latestBlockSaved) hash))
  else
    let latestBlockSaved := getLatestBlockUnsafe cs in
    let* prevHash := fetchBlockHashByNum (Block latestBlockSaved) in
    ret (negb (String.eqb (Hash latestBlockSaved) prevHash)).

Definition gotNewBlock (newLatestBlock : Z) : M bool :=
  let* cs := get in
  ret (newLatestBlock >? GetLatestBlockNum cs).

(** *** One poll cycle *)

(** [for i := prev_latest + 1; i <= newLatestBlock; i++]. The loop does
    not end when [newLatestBlock] is the largest [int64], so it runs on
    fuel. *)
Fixpoint newLatestCallback_loop (fuel : nat) (i newLatestBlock : Z)
    (latestHash : string) : M unit :=
  if i <=? newLatestBlock then
    match fuel with
    | O => lift OutOfFuel
    | S fuel' =>
      emit (EvNewLatestCallback i latestHash) >>>
      newLatestCallback_loop fuel' (Int64.add i 1) newLatestBlock latestHash
    end
  else ret tt.

Definition fetchAllPreviousBlocksIfNecessary (fuel : nat) : M unit :=
  bind_wrap fetchLatestBlockNum
    (fun err => LavaFormatError (ErrCouldNotFetchLatestBlockNum err))
    (fun newLatestBlock =>
       let* gotNewBlock := gotNewBlock newLatestBlock in
       bind_wrap (forkChanged newLatestBlock)
         (fun err => LavaFormatError (ErrCouldNotFetchLatestBlockHash newLatestBlock err))
         (fun forked =>
            if gotNewBlock || forked then
              let* cs := get in
              let prev_latest := GetLatestBlockNum cs in
              let* latestHash := fetchAllPreviousBlocks newLatestBlock in
              (if gotNewBlock then
                 if newLatestCallback cs then
                   newLatestCallback_loop fuel (Int64.add prev_latest 1)
                     newLatestBlock latestHash
                 else ret tt
               else ret tt) >>>
              (if forked then
                 if forkCallback cs then emit (EvForkCallback newLatestBlock)
                 else ret tt
               else ret tt)
            else ret tt)).

(** *** Backoff and the ticker *)

Definition exponentialBackoff (baseTime fails : Z) : Z :=
  let fails := if fails >? 10 then 10 else fails in
  let maxIncrease := BACKOFF_MAX_TIME in
  let backoff := Int64.mul baseTime (Int64.wrap (Z.shiftl 1 fails)) in
  if backoff >? maxIncrease then maxIncrease else backoff.

(** [time.NewTicker] panics on a period that is not positive. *)
Definition NewTicker (d : Z) : M unit :=
  if d <=? 0 then lift Panic else modify (set_ticker d).

Definition updateTicker (tickerBaseTime fetchFails : Z) : M unit :=
  NewTicker (exponentialBackoff tickerBaseTime fetchFails).

(** The [case <-cs.ticker.C] branch of the loop of [start]: one tick,
    from the failure count before it to the count after it. *)
Definition start_tick (fuel : nat) (tickerTime fetchFails : Z) : M Z := fun w =>
  match fetchAllPreviousBlocksIfNecessary fuel w with
  | (Err err, w') =>
    let fetchFails := Uint64.add fetchFails 1 in
    (updateTicker tickerTime fetchFails >>>
     LavaFormatError_ (ErrFailedToFetchAllPrevious err fetchFails) >>>
     ret fetchFails) w'
  | (Ok _, w') =>
    ((if negb (fetchFails =? 0) then updateTicker tickerTime 0 else ret tt) >>>
     ret 0) w'
  | (Panic, w') => (Panic, w')
  | (OutOfFuel, w') => (OutOfFuel, w')
  end.

(** *** Bootstrap *)

(** [for idx := 0; idx < initRetriesCount && err != nil; idx++ { res = m() }],
    entered with the result [res] of a first call. *)
Fixpoint retry {A} (retries : nat) (m : M A) (res : result A) : M A :=
  match retries, res with
  | S retries', Err _ => fun w => let '(res', w') := m w in retry retries' m res' w'
  | _, _ => lift res
  end.

(** A first call of [m], then the retry loop. *)
Definition with_retry {A} (retries : nat) (m : M A) : M A := fun w =>
  let '(res, w') := m w in retry retries m res w'.

Definition fetchInitDataWithRetry : M unit :=
  bind_wrap (with_retry initRetriesCount fetchLatestBlockNum)
    (fun err => LavaFormatError (ErrCriticalInit err))
    (fun newLatestBlock =>
       bind_wrap (with_retry initRetriesCount (fetchAllPreviousBlocks newLatestBlock))
         (fun err => LavaFormatError (ErrCriticalInit err))
         (fun _ => ret tt)).

(** [start] up to the launch of the poll goroutine; its result is the
    base period of the ticks. *)
Definition start (pollingBlockTime : Z) : M Z :=
  let tickerTime := Z.quot pollingBlockTime 10 in
  NewTicker tickerTime >>>
  fetchInitDataWithRetry >>>
  ret tickerTime.

(** The tracker [NewChainTracker] builds before it calls [start]. *)
Definition NewChainTracker_init (BlocksToSave ServerBlockMemory distance : Z)
    (ForkCallback NewLatestCallback : bool) : ChainTracker :=
  {| blocksToSave := BlocksToSave; latestBlockNum := 0; blocksQueue := [];
     forkCallback := ForkCallback; newLatestCallback := NewLatestCallback;
     serverBlockMemory := ServerBlockMemory;
     blockCheckpointDistance := distance; blockCheckpoint := 0; ticker := 0 |}.

End Tracker.

(** ** A concrete remote: a chain that does not change between calls *)

Record Chain := {
  chain_latest : result Z;
  chain_hashes : list (Z * string)
}.

Fixpoint chain_hash (hs : list (Z * string)) (b : Z) : result string :=
  match hs with
  | [] => Err (ErrFetcher "no such block")
  | (b', h) :: hs' => if b' =? b then Ok h else chain_hash hs' b
  end.

Definition chain_FetchLatestBlockNum (c : Chain) : result Z * Chain :=
  (match chain_latest c with Ok n => Ok (Int64.wrap n) | r => r end, c).

Definition chain_FetchBlockHashByNum (c : Chain) (b : Z) : result string * Chain :=
  (chain_hash (chain_hashes c) b, c).

(** ** Vocabulary of the properties *)

(** The index of the existing window that iteration [i] of the scan
    compares with, [(len - 1 + read_diff) - i] in [int64] arithmetic. *)
Definition existing_idx (len read_diff i : Z) : Z :=
  Int64.sub (Int64.add (Int64.sub len 1) read_diff) i.

(** The conditions under which iteration [i] of the scan, which fetched
    hash [h] for block [b], stops at the existing window: the spec's
    overlap test and splice policy. *)
Definition anchor_accepted (cs : ChainTracker) (read_diff i b : Z) (h : string) : Prop :=
  let len := Z.of_nat (length (blocksQueue cs)) in
  let ei := existing_idx len read_diff i in
  let overwrite := Int64.add ei 1 in
  read_diff < len /\
  0 < ei <= Int64.sub len 1 /\
  (exists x, blocksQueue cs !! Z.to_nat ei = Some x /\ Block x = b /\ Hash x = h) /\
  Int64.sub (Int64.sub (Int64.of_uint64 (blocksToSave cs)) 1) i <= overwrite /\
  read_diff <= overwrite.

(** Block numbers rise by exactly one from each record to the next. *)
Definition contiguous (q : list BlockStore) : Prop :=
  forall (i : nat) (x y : BlockStore),
    q !! i = Some x -> q !! S i = Some y -> Block y = Block x + 1.

(** The window as the spec wants it: full, contiguous, and its newest
    record is the block [latestBlockNum] names. *)
Definition window_ok (cs : ChainTracker) : Prop :=
  Z.of_nat (length (blocksQueue cs)) = blocksToSave cs /\
  contiguous (blocksQueue cs) /\
  exists x, last (blocksQueue cs) = Some x /\ latestBlockNum cs = Block x.

(** The same with the block numbers listed, and every one an [int64]:
    the window holds blocks [latest - blocksToSave + 1 .. latest]. *)
Definition window_inv (cs : ChainTracker) : Prop :=
  0 < blocksToSave cs <= Int64.max_int /\
  Block <$> blocksQueue cs =
    seqZ (latestBlockNum cs - blocksToSave cs + 1) (blocksToSave cs) /\
  Int64.min_int <= latestBlockNum cs - blocksToSave cs + 1 /\
  latestBlockNum cs <= Int64.max_int.

(** The tracker as [NewChainTracker] leaves it for the bootstrap. *)
Definition bootstrap_state (cs : ChainTracker) : Prop :=
  blocksQueue cs = [] /\ latestBlockNum cs = 0 /\
  0 <= blocksToSave cs <= Int64.max_int.

Definition is_newLatestCallback (ev : event) : bool :=
  match ev with EvNewLatestCallback _ _ => true | _ => false end.

Definition is_forkCallback (ev : event) : bool :=
  match ev with EvForkCallback _ => true | _ => false end.

Definition is_callback (ev : event) : bool :=
  is_newLatestCallback ev || is_forkCallback ev.

(** How many of the events satisfy [f]. *)
Definition count_events (f : event -> bool) (evs : list event) : nat :=
  length (List.filter f evs).

(** The new-block callbacks of a cycle that moves the latest block from
    [prev] to [n]: one per block of [prev + 1 .. n], in ascending order,
    each with the hash [tip]. *)
Definition new_block_events (prev n : Z) (tip : string) : list event :=
  (fun b => EvNewLatestCallback b tip) <$> seqZ (prev + 1) (n - prev).

Definition result_map {A B} (f : A -> B) (r : result A) : result B :=
  match r with
  | Ok a => Ok (f a)
  | Err e => Err e
  | Panic => Panic
  | OutOfFuel => OutOfFuel
  end.

(** ** Tactics and facts for machine integers *)

Ltac int64_unfold :=
  unfold Int64.add, Int64.sub, Int64.mul, Int64.of_uint64, Int64.wrap,
    Int64.in_range, Int64.min_int, Int64.max_int,
    Uint64.add, Uint64.of_int64, Uint64.wrap, Uint64.in_range in *;
  change (2 ^ 63) with 9223372036854775808 in *;
  change (2 ^ 64) with 18446744073709551616 in *.

Ltac int64_lia := int64_unfold; Z.to_euclidean_division_equations; lia.

Lemma Int64_wrap_in_range z : Int64.in_range (Int64.wrap z).
Proof. int64_lia. Qed.

Lemma Int64_wrap_id z : Int64.in_range z -> Int64.wrap z = z.
Proof. int64_lia. Qed.

Lemma Int64_add_id a b : Int64.in_range (a + b) -> Int64.add a b = a + b.
Proof. apply Int64_wrap_id. Qed.

Lemma Int64_sub_id a b : Int64.in_range (a - b) -> Int64.sub a b = a - b.
Proof. apply Int64_wrap_id. Qed.

Lemma Int64_of_uint64_nonneg u :
  Uint64.in_range u -> 0 <= Int64.of_uint64 u -> Int64.of_uint64 u = u /\ u <= Int64.max_int.
Proof. int64_lia. Qed.

Lemma chain_FetchLatestBlockNum_int64 c n c' :
  chain_FetchLatestBlockNum c = (Ok n, c') -> Int64.in_range n.
Proof.
  unfold chain_FetchLatestBlockNum. intros H.
  destruct (chain_latest c); inversion H. apply Int64_wrap_in_range.
Qed.

#[export] Instance Chain_fetcher : ChainFetcher Chain := {|
  FetchLatestBlockNum := chain_FetchLatestBlockNum;
  FetchBlockHashByNum := chain_FetchBlockHashByNum;
  FetchLatestBlockNum_int64 := chain_FetchLatestBlockNum_int64
|}.

(** ** Reasoning about computations *)

Section Proofs.
Context {R : Type} {fetcher : ChainFetcher R}.

#[local] Abbreviation World := (@World R).
#[local] Abbreviation M := (@M R).

(** A run of repairs that all succeed; the remote may change in between. *)
Inductive successful_repairs : World -> World -> Prop :=
| repairs_done (w : World) : successful_repairs w w
| repairs_remote (w w' : World) (r : R) :
    successful_repairs {| remote := r; tracker := tracker w; trace := trace w |} w' ->
    successful_repairs w w'
| repairs_step (w w1 w2 : World) (n : Z) (h : string) :
    fetchAllPreviousBlocks n w = (Ok h, w1) ->
    successful_repairs w1 w2 ->
    successful_repairs w w2.

Lemma bind_Ok {A B} (m : M A) (k : A -> M B) w b w' :
  bind m k w = (Ok b, w') ->
  exists a w1, m w = (Ok a, w1) /\ k a w1 = (Ok b, w').
Proof.
  unfold bind. destruct (m w) as [[a|e| |] w1]; intros H; try discriminate.
  eauto.
Qed.

Lemma bind_Err {A B} (m : M A) (k : A -> M B) w e w' :
  bind m k w = (Err e, w') ->
  m w = (Err e, w') \/ exists a w1, m w = (Ok a, w1) /\ k a w1 = (Err e, w').
Proof.
  unfold bind. destruct (m w) as [[a|e0| |] w1]; intros H; try discriminate.
  - right. eauto.
  - left. inversion H. reflexivity.
Qed.

Lemma bind_eq {A B} (m : M A) (k : A -> M B) w a w1 :
  m w = (Ok a, w1) -> bind m k w = k a w1.
Proof. unfold bind. intros ->. reflexivity. Qed.

Lemma bind_wrap_eq {A B} (m : M A) (h : error -> M B) (k : A -> M B) w a w1 :
  m w = (Ok a, w1) -> bind_wrap m h k w = k a w1.
Proof. unfold bind_wrap. intros ->. reflexivity. Qed.

Lemma app_singleton_neq {A} (l : list A) (x : A) : l ++ [x] <> l.
Proof.
  intros H. apply (f_equal length) in H. rewrite length_app in H. simpl in H. lia.
Qed.

(** ** The hash-fetch wrapper *)

Lemma fetchBlockHashByNum_eq (b : Z) (w : World) :
  fetchBlockHashByNum b w =
  if b <? Int64.sub (GetLatestBlockNum (tracker w))
            (Int64.of_uint64 (serverBlockMemory (tracker w)))
  then (Err (ErrorFailedToFetchTooEarlyBlock b (GetLatestBlockNum (tracker w))
               (serverBlockMemory (tracker w))), w)
  else chainFetcher_FetchBlockHashByNum b w.
Proof.
  unfold fetchBlockHashByNum, bind, get, lift.
  destruct (_ <? _); reflexivity.
Qed.

(** C9. The wrapper answers with the too-early error, the remote not
    called (same remote state, no event), exactly when the block is below
    [latest - serverBlockMemory] (in [int64], the exact difference when
    that fits); from the bound on, the request goes to the remote
    once and its answer is the wrapper's. *)
Theorem fetchBlockHashByNum_too_early (b : Z) (w : World) :
  let cs := tracker w in
  let bound :=
    Int64.sub (GetLatestBlockNum cs) (Int64.of_uint64 (serverBlockMemory cs)) in
  (b < bound <->
   fetchBlockHashByNum b w =
     (Err (ErrorFailedToFetchTooEarlyBlock b (GetLatestBlockNum cs)
             (serverBlockMemory cs)), w)) /\
  (bound <= b ->
   fetchBlockHashByNum b w =
     (fst (FetchBlockHashByNum (remote w) b),
      {| remote := snd (FetchBlockHashByNum (remote w) b);
         tracker := cs;
         trace := trace w ++
           [EvFetchBlockHashByNum b (fst (FetchBlockHashByNum (remote w) b))] |})) /\
  (0 <= serverBlockMemory cs <= Int64.max_int ->
   Int64.in_range (GetLatestBlockNum cs - serverBlockMemory cs) ->
   bound = GetLatestBlockNum cs - serverBlockMemory cs).
Proof.
  intros cs bound. rewrite fetchBlockHashByNum_eq. fold cs. fold bound.
  assert (Hfwd : chainFetcher_FetchBlockHashByNum b w =
     (fst (FetchBlockHashByNum (remote w) b),
      {| remote := snd (FetchBlockHashByNum (remote w) b);
         tracker := cs;
         trace := trace w ++
           [EvFetchBlockHashByNum b (fst (FetchBlockHashByNum (remote w) b))] |})).
  { unfold chainFetcher_FetchBlockHashByNum.
    destruct (FetchBlockHashByNum (remote w) b); reflexivity. }
  repeat split.
  - intros Hlt. apply Z.ltb_lt in Hlt. rewrite Hlt. reflexivity.
  - destruct (b <? bound) eqn:E; [intros _; apply Z.ltb_lt; exact E|].
    rewrite Hfwd. intros H. inversion H as [[H1 H2]].
    destruct w as [r t tr]; simpl in *. inversion H2 as [[Hr Htr]].
    exfalso. exact (app_singleton_neq _ _ Htr).
  - intros Hge. apply Z.ltb_ge in Hge. rewrite Hge. exact Hfwd.
  - intros Hm Hr. subst bound. unfold GetLatestBlockNum in *.
    int64_lia.
Qed.

(** ** Backoff *)

Lemma pow2_small k : 0 <= k <= 10 -> 1 <= 2 ^ k <= 1024.
Proof.
  intros Hk. split.
  - apply (Z.pow_le_mono_r 2 0 k); lia.
  - apply (Z.pow_le_mono_r 2 k 10); lia.
Qed.

Lemma exponentialBackoff_eq (base n : Z) :
  0 <= n ->
  exponentialBackoff base n =
    Z.min (Int64.mul base (2 ^ Z.min n 10)) BACKOFF_MAX_TIME.
Proof.
  intros Hn. unfold exponentialBackoff.
  set (k := if n >? 10 then 10 else n).
  assert (Hk : k = Z.min n 10).
  { subst k. destruct (Z.gtb_spec n 10); lia. }
  rewrite Hk. rewrite Z.shiftl_1_l.
  assert (Hp := pow2_small (Z.min n 10) ltac:(lia)).
  rewrite (Int64_wrap_id (2 ^ Z.min n 10)) by int64_lia.
  destruct (Z.gtb_spec (Int64.mul base (2 ^ Z.min n 10)) BACKOFF_MAX_TIME); lia.
Qed.

Lemma NewTicker_pos (d : Z) (w : World) :
  0 < d ->
  NewTicker d w =
    (Ok tt, {| remote := remote w; tracker := set_ticker d (tracker w);
               trace := trace w |}).
Proof.
  intros Hd. unfold NewTicker. destruct (Z.leb_spec d 0); [lia|]. reflexivity.
Qed.

Lemma start_tick_failure (fuel : nat) (tickerTime fetchFails : Z) (w w1 : World) e :
  fetchAllPreviousBlocksIfNecessary fuel w = (Err e, w1) ->
  0 < exponentialBackoff tickerTime (Uint64.add fetchFails 1) ->
  exists w2,
    start_tick fuel tickerTime fetchFails w = (Ok (Uint64.add fetchFails 1), w2) /\
    ticker (tracker w2) = exponentialBackoff tickerTime (Uint64.add fetchFails 1) /\
    blocksQueue (tracker w2) = blocksQueue (tracker w1) /\
    latestBlockNum (tracker w2) = latestBlockNum (tracker w1).
Proof.
  intros Hc Hpos. unfold start_tick. rewrite Hc.
  unfold updateTicker, bind. rewrite (NewTicker_pos _ _ Hpos).
  unfold LavaFormatError_, emit, ret. simpl.
  eexists. split; [reflexivity|]. simpl. auto.
Qed.

Lemma start_tick_success (fuel : nat) (tickerTime fetchFails : Z) (w w1 : World) :
  fetchAllPreviousBlocksIfNecessary fuel w = (Ok tt, w1) ->
  fetchFails <> 0 ->
  0 < exponentialBackoff tickerTime 0 ->
  exists w2,
    start_tick fuel tickerTime fetchFails w = (Ok 0, w2) /\
    ticker (tracker w2) = exponentialBackoff tickerTime 0 /\
    blocksQueue (tracker w2) = blocksQueue (tracker w1) /\
    latestBlockNum (tracker w2) = latestBlockNum (tracker w1).
Proof.
  intros Hc Hne Hpos. unfold start_tick. rewrite Hc.
  destruct (Z.eqb_spec fetchFails 0); [contradiction|]. simpl.
  unfold updateTicker, bind. rewrite (NewTicker_pos _ _ Hpos).
  unfold ret. eexists. split; [reflexivity|]. simpl. auto.
Qed.

(** C8, as the code has it. The backoff is
    [min (base * 2^min(n,10), 10 minutes)], the product taken in
    [time.Duration] ([int64]) and exact whenever it fits. A tick that
    fails with [fetchFails] failures before it sets the period to the
    backoff of [fetchFails + 1] (so to [min (base * 4, 10 minutes)] after
    two failures in a row); a tick that succeeds after failures sets it to
    the backoff of 0, which is [min (base, 10 minutes)]: the base tick when
    the base is at most 10 minutes. *)
Theorem exponentialBackoff_spec (base n : Z) :
  Int64.in_range base -> Uint64.in_range n ->
  exponentialBackoff base n =
    Z.min (Int64.mul base (2 ^ Z.min n 10)) BACKOFF_MAX_TIME /\
  (Int64.in_range (base * 2 ^ Z.min n 10) ->
   exponentialBackoff base n = Z.min (base * 2 ^ Z.min n 10) BACKOFF_MAX_TIME) /\
  (Int64.in_range (base * 4) ->
   exponentialBackoff base (Uint64.add (Uint64.add 0 1) 1) =
     Z.min (base * 4) BACKOFF_MAX_TIME) /\
  exponentialBackoff base 0 = Z.min base BACKOFF_MAX_TIME /\
  (base <= BACKOFF_MAX_TIME -> exponentialBackoff base 0 = base) /\
  (forall fuel (w w1 : World) e,
     fetchAllPreviousBlocksIfNecessary fuel w = (Err e, w1) ->
     0 < exponentialBackoff base (Uint64.add n 1) ->
     exists w2,
       start_tick fuel base n w = (Ok (Uint64.add n 1), w2) /\
       ticker (tracker w2) = exponentialBackoff base (Uint64.add n 1)) /\
  (forall fuel (w w1 : World),
     fetchAllPreviousBlocksIfNecessary fuel w = (Ok tt, w1) ->
     n <> 0 -> 0 < exponentialBackoff base 0 ->
     exists w2,
       start_tick fuel base n w = (Ok 0, w2) /\
       ticker (tracker w2) = exponentialBackoff base 0).
Proof.
  intros Hb Hn.
  assert (H0 : exponentialBackoff base 0 = Z.min base BACKOFF_MAX_TIME).
  { rewrite exponentialBackoff_eq by lia. change (2 ^ Z.min 0 10) with 1.
    unfold Int64.mul. rewrite Z.mul_1_r. rewrite Int64_wrap_id by exact Hb.
    reflexivity. }
  repeat split.
  - apply exponentialBackoff_eq. unfold Uint64.in_range in Hn. lia.
  - intros Hr. rewrite exponentialBackoff_eq by (unfold Uint64.in_range in Hn; lia).
    unfold Int64.mul. rewrite Int64_wrap_id by exact Hr. reflexivity.
  - intros Hr. change (Uint64.add (Uint64.add 0 1) 1) with 2.
    rewrite exponentialBackoff_eq by lia. change (2 ^ Z.min 2 10) with 4.
    unfold Int64.mul. rewrite Int64_wrap_id by exact Hr. reflexivity.
  - exact H0.
  - intros Hle. rewrite H0. lia.
  - intros fuel w w1 e Hc Hpos.
    destruct (start_tick_failure fuel base n w w1 e Hc Hpos) as (w2 & H1 & H2 & _).
    eauto.
  - intros fuel w w1 Hc Hne Hpos.
    destruct (start_tick_success fuel base n w w1 Hc Hne Hpos) as (w2 & H1 & H2 & _).
    eauto.
Qed.

(** ** The overlap test *)

(** The world after some more events. *)
Definition extend (w : World) (evs : list event) : World :=
  {| remote := remote w; tracker := tracker w; trace := trace w ++ evs |}.

Lemma extend_nil w : extend w [] = w.
Proof. destruct w. unfold extend. simpl. rewrite app_nil_r. reflexivity. Qed.

Lemma extend_extend w evs evs' : extend (extend w evs) evs' = extend w (evs ++ evs').
Proof. unfold extend. simpl. rewrite app_assoc. reflexivity. Qed.

Lemma index_lookup {A} (l : list A) (i : Z) :
  0 <= i < Z.of_nat (length l) ->
  exists x, index l i = Ok x /\ l !! Z.to_nat i = Some x.
Proof.
  intros Hi. unfold index.
  destruct (Z.leb_spec 0 i) as [H0|H0]; [|lia].
  destruct (Z.ltb_spec i (Z.of_nat (length l))) as [H1|H1]; [|lia].
  simpl. destruct (lookup_lt_is_Some_2 l (Z.to_nat i)) as [x Hx]; [lia|].
  rewrite Hx. eauto.
Qed.

Definition is_log (ev : event) : Prop := exists err, ev = EvLogError err.

(** The shape of every case of the overlap test that answers no: [tacB]
    refutes the acceptance conditions, [tacE] settles the mismatch clause. *)
Ltac overlap_no tacB tacE :=
  split; [first [reflexivity | rewrite extend_nil; reflexivity]|];
  split; [split; [discriminate
                 | intros Hacc; exfalso; unfold anchor_accepted in Hacc;
                   cbv zeta in Hacc;
                   match goal with
                   | Hl : ?l = Z.of_nat _, He : ?e = existing_idx ?l _ _ |- _ =>
                     rewrite <- Hl in Hacc; rewrite <- He in Hacc
                   end; tacB]|];
  split; [discriminate|];
  split; [auto|];
  split; [intros y Hy1 Hy2 Hy3 Hy4; tacE|];
  repeat constructor; try (eexists; reflexivity).

Lemma hashesOverlapIndexes_spec (rd i b : Z) (h : string) (w : World) :
  let cs := tracker w in
  let len := Z.of_nat (length (blocksQueue cs)) in
  let ei := existing_idx len rd i in
  exists found s e nqs evs,
    hashesOverlapIndexes rd i b h w = (Ok (found, s, e, nqs), extend w evs) /\
    (found = true <-> anchor_accepted cs rd i b h) /\
    (found = true ->
     s = rd /\ e = Int64.add ei 1 /\ nqs = Int64.sub e rd /\ evs = []) /\
    (found = false -> s = 0 /\ e = 0 /\ nqs = 0) /\
    (forall x, rd < len -> 0 < ei <= Int64.sub len 1 ->
       blocksQueue cs !! Z.to_nat ei = Some x -> Block x <> b ->
       found = false /\ evs = [EvLogError (ErrMismatchingBlock b x)]) /\
    Forall is_log evs.
Proof.
  intros cs len ei. subst ei len cs.
  unfold hashesOverlapIndexes, bind, get, ret.
  change (Int64.sub (Int64.add (Int64.sub
            (Z.of_nat (length (blocksQueue (tracker w)))) 1) rd) i)
    with (existing_idx (Z.of_nat (length (blocksQueue (tracker w)))) rd i).
  remember (tracker w) as cs eqn:Hcs.
  remember (Z.of_nat (length (blocksQueue cs))) as len eqn:Hlen.
  remember (existing_idx len rd i) as ei eqn:Hei.
  destruct (Z.geb_spec rd len) as [Hge|Hlt].
  { exists false, 0, 0, 0, [].
    overlap_no ltac:(destruct Hacc as (H1 & _); lia) ltac:(lia). }
  destruct (Z.ltb_spec 0 ei) as [Hpos|Hnpos]; simpl.
  2:{ exists false, 0, 0, 0, [].
      overlap_no ltac:(destruct Hacc as (_ & H1 & _); lia) ltac:(lia). }
  destruct (Z.leb_spec ei (Int64.sub len 1)) as [Hle|Hgt].
  2:{ exists false, 0, 0, 0, [].
      overlap_no ltac:(destruct Hacc as (_ & H1 & _); lia) ltac:(lia). }
  assert (Hin : 0 <= ei < len).
  { subst ei len. unfold existing_idx in *. int64_lia. }
  destruct (index_lookup (blocksQueue cs) ei ltac:(rewrite <- Hlen; exact Hin))
    as (x & Hidx & Hx).
  unfold lift. rewrite Hidx.
  destruct (Z.eqb_spec (Block x) b) as [Hb|Hb]; simpl.
  2:{ exists false, 0, 0, 0, [EvLogError (ErrMismatchingBlock b x)].
      overlap_no ltac:(destruct Hacc as (_ & _ & (z & Hz & Hzb & _) & _); congruence)
                 ltac:(split; congruence). }
  destruct (String.eqb_spec (Hash x) h) as [Hh|Hh].
  2:{ exists false, 0, 0, 0, [].
      overlap_no ltac:(destruct Hacc as (_ & _ & (z & Hz & _ & Hzh) & _); congruence)
                 ltac:(congruence). }
  destruct (Z.ltb_spec (Int64.add ei 1)
              (Int64.sub (Int64.sub (Int64.of_uint64 (blocksToSave cs)) 1) i)) as [H1|H1];
    simpl.
  { exists false, 0, 0, 0, [EvLogError (ErrNotEnoughBlocks b x (Int64.add ei 1))].
    overlap_no ltac:(destruct Hacc as (_ & _ & _ & H2 & _); lia)
               ltac:(congruence). }
  destruct (Z.gtb_spec rd (Int64.add ei 1)) as [H2|H2].
  { exists false, 0, 0, 0, [EvLogError (ErrNotEnoughBlocks b x (Int64.add ei 1))].
    overlap_no ltac:(destruct Hacc as (_ & _ & _ & _ & H3); lia)
               ltac:(congruence). }
  exists true, rd, (Int64.add ei 1), (Int64.sub (Int64.add ei 1) rd), [].
  split; [rewrite extend_nil; reflexivity|].
  split.
  { split; [intros _|reflexivity]. unfold anchor_accepted. cbv zeta.
    rewrite <- Hlen, <- Hei. repeat split; try lia. exists x. auto. }
  split; [auto|]. split; [discriminate|].
  split; [intros y _ _ Hy Hyb; congruence|constructor].
Qed.

(** ** The backwards scan *)

Lemma fetchBlockHashByNum_cases (b : Z) (w : World) (res : result string) (w' : World) :
  fetchBlockHashByNum b w = (res, w') ->
  (w' = w /\ exists e, res = Err e) \/
  (tracker w' = tracker w /\ trace w' = trace w ++ [EvFetchBlockHashByNum b res]).
Proof.
  rewrite fetchBlockHashByNum_eq. destruct (_ <? _).
  - intros H. inversion H. left. eauto.
  - unfold chainFetcher_FetchBlockHashByNum.
    destruct (FetchBlockHashByNum (remote w) b) as [res0 r'].
    intros H. inversion H. right. simpl. auto.
Qed.

Lemma store_Ok {A} (l : list A) (i : Z) (x : A) (l' : list A) :
  store l i x = Ok l' ->
  0 <= i < Z.of_nat (length l) /\ l' = <[Z.to_nat i := x]> l.
Proof.
  unfold store. destruct (Z.leb_spec 0 i) as [H0|H0]; simpl; [|discriminate].
  destruct (Z.ltb_spec i (Z.of_nat (length l))) as [H1|H1]; [|discriminate].
  intros H. inversion H. auto.
Qed.

Lemma store_in_range {A} (l : list A) (i : Z) (x : A) :
  0 <= i < Z.of_nat (length l) -> store l i x = Ok (<[Z.to_nat i := x]> l).
Proof.
  intros Hi. unfold store. destruct (Z.leb_spec 0 i) as [H0|H0]; [|lia].
  destruct (Z.ltb_spec i (Z.of_nat (length l))) as [H1|H1]; [|lia]. reflexivity.
Qed.

(** One iteration of the loop of [readHashes] that fetched [h] for the
    block and found no overlap: the block is stored and the loop goes on. *)
Lemma readHashes_loop_continue todo idx n rd s e nqs nq (w w1 w2 : World) h s' e' nqs' :
  fetchBlockHashByNum (Int64.sub n idx) w = (Ok h, w1) ->
  hashesOverlapIndexes rd idx (Int64.sub n idx) h w1 = (Ok (false, s', e', nqs'), w2) ->
  readHashes_loop (S todo) idx n rd s e nqs nq w =
    match store nq (Int64.sub (Int64.sub (Int64.of_uint64 (blocksToSave (tracker w2))) 1) idx)
            {| Block := Int64.sub n idx; Hash := h |} with
    | Ok nq' => readHashes_loop todo (Int64.add idx 1) n rd s' e' nqs' nq' w2
    | Err err => (Err err, w2)
    | Panic => (Panic, w2)
    | OutOfFuel => (OutOfFuel, w2)
    end.
Proof.
  intros Hf Ho. simpl. unfold bind_wrap. rewrite Hf.
  unfold bind at 1. rewrite Ho. unfold bind, get, lift.
  destruct (store _ _ _); reflexivity.
Qed.

(** The scan writes nothing to the tracker, and a remote fetch that fails
    ends it with that error. *)
Lemma readHashes_loop_events todo : forall idx n rd s e nqs nq (w : World) res w',
  readHashes_loop todo idx n rd s e nqs nq w = (res, w') ->
  tracker w' = tracker w /\
  exists evs, trace w' = trace w ++ evs /\
    Forall (fun ev => is_callback ev = false) evs /\
    forall b err, In (EvFetchBlockHashByNum b (Err err)) evs ->
      res = Err (ErrCouldNotGetBlockData b err).
Proof.
  induction todo as [|todo IH]; intros idx n rd s e nqs nq w res w' H.
  - simpl in H. inversion H. split; [reflexivity|]. exists [].
    rewrite app_nil_r. repeat split; [constructor|]. intros b err [].
  - simpl in H. unfold bind_wrap in H.
    destruct (fetchBlockHashByNum (Int64.sub n idx) w) as [r0 w1] eqn:Hf.
    destruct (fetchBlockHashByNum_cases _ _ _ _ Hf) as [[Hw1 [e0 Hr0]]|[Ht1 Htr1]].
    + subst w1 r0. unfold LavaFormatError in H. inversion H. simpl.
      split; [reflexivity|]. eexists. split; [reflexivity|].
      split; [repeat constructor|].
      intros b err [Hin|[]]. discriminate.
    + destruct r0 as [h|e0| |].
      * destruct (hashesOverlapIndexes_spec rd idx (Int64.sub n idx) h w1)
          as (found & s1 & e1 & nqs1 & evs1 & Ho & _ & _ & _ & _ & Hlog).
        unfold bind at 1 in H. rewrite Ho in H.
        assert (Hcb1 : Forall (fun ev => is_callback ev = false) evs1).
        { eapply Forall_impl; [exact Hlog|]. intros ev [err ->]. reflexivity. }
        destruct found.
        { unfold ret in H. inversion H. simpl. split; [exact Ht1|].
          exists (EvFetchBlockHashByNum (Int64.sub n idx) (Ok h) :: evs1).
          rewrite Htr1. rewrite <- app_assoc. split; [reflexivity|].
          split; [constructor; [reflexivity|exact Hcb1]|].
          intros b err [Hin|Hin]; [discriminate|].
          rewrite Forall_forall in Hlog. destruct (Hlog _ (proj2 (list_elem_of_In _ _) Hin)) as [x Hx].
          discriminate. }
        unfold bind, get, lift in H. simpl in H.
        destruct (store nq _ _) as [nq'| | |] eqn:Hst;
          try (inversion H; simpl; split; [exact Ht1|];
               exists (EvFetchBlockHashByNum (Int64.sub n idx) (Ok h) :: evs1);
               rewrite Htr1; rewrite <- app_assoc; split; [reflexivity|];
               split; [constructor; [reflexivity|exact Hcb1]|];
               intros b err [Hin|Hin]; [discriminate|];
               rewrite Forall_forall in Hlog;
               destruct (Hlog _ (proj2 (list_elem_of_In _ _) Hin)) as [x Hx];
               discriminate).
        destruct (IH _ _ _ _ _ _ _ _ _ _ H) as (Ht & evs & Htr & Hcb & Herr).
        simpl in Ht, Htr. split; [congruence|].
        exists (EvFetchBlockHashByNum (Int64.sub n idx) (Ok h) :: evs1 ++ evs).
        rewrite Htr, Htr1. rewrite <- !app_assoc. split; [reflexivity|].
        split; [constructor; [reflexivity|apply Forall_app; auto]|].
        intros b err [Hin|Hin]; [discriminate|].
        apply in_app_or in Hin. destruct Hin as [Hin|Hin]; [|eauto].
        rewrite Forall_forall in Hlog.
        destruct (Hlog _ (proj2 (list_elem_of_In _ _) Hin)) as [x Hx]. discriminate.
      * unfold LavaFormatError in H. inversion H. simpl. split; [exact Ht1|].
        exists [EvFetchBlockHashByNum (Int64.sub n idx) (Err e0);
                EvLogError (ErrCouldNotGetBlockData (Int64.sub n idx) e0)].
        rewrite Htr1. rewrite <- app_assoc. split; [reflexivity|].
        split; [repeat constructor|].
        intros b err [Hin|[Hin|[]]]; [|discriminate]. inversion Hin. reflexivity.
      * inversion H. subst. split; [exact Ht1|]. eexists. split; [exact Htr1|].
        split; [repeat constructor|]. intros b err [Hin|[]]. discriminate.
      * inversion H. subst. split; [exact Ht1|]. eexists. split; [exact Htr1|].
        split; [repeat constructor|]. intros b err [Hin|[]]. discriminate.
Qed.

(** What a scan that comes to its end leaves: the slots of the iterations
    it ran hold the blocks it fetched, the other slots are untouched, and
    it either ran all iterations and found nothing, or stopped at an
    accepted anchor with the indexes of the splice. *)
Lemma readHashes_loop_Ok todo : forall idx n rd s e nqs nq (w : World) sc w',
  readHashes_loop todo idx n rd s e nqs nq w = (Ok sc, w') ->
  let B := Int64.of_uint64 (blocksToSave (tracker w)) in
  let len := Z.of_nat (length (blocksQueue (tracker w))) in
  Z.of_nat todo = B - idx -> 0 <= idx -> Z.of_nat (length nq) = B ->
  length (scan_newBlocksQueue sc) = length nq /\
  idx <= scan_idx sc <= B /\
  (forall j : nat, B - idx <= Z.of_nat j -> scan_newBlocksQueue sc !! j = nq !! j) /\
  (forall j, idx <= j < scan_idx sc ->
     exists hj, scan_newBlocksQueue sc !! Z.to_nat (B - 1 - j) =
                Some {| Block := Int64.sub n j; Hash := hj |}) /\
  (scan_foundOverlap sc = false ->
     scan_idx sc = B /\
     (todo = 0%nat ->
      scan_blocksQueueStartIndex sc = s /\ scan_blocksQueueEndIndex sc = e /\
      scan_newQueueStartIndex sc = nqs) /\
     ((0 < todo)%nat ->
      scan_blocksQueueStartIndex sc = 0 /\ scan_blocksQueueEndIndex sc = 0 /\
      scan_newQueueStartIndex sc = 0)) /\
  (scan_foundOverlap sc = true ->
     scan_idx sc < B /\
     (exists h, anchor_accepted (tracker w) rd (scan_idx sc)
                  (Int64.sub n (scan_idx sc)) h) /\
     scan_blocksQueueStartIndex sc = rd /\
     scan_blocksQueueEndIndex sc = Int64.add (existing_idx len rd (scan_idx sc)) 1 /\
     scan_newQueueStartIndex sc = Int64.sub (scan_blocksQueueEndIndex sc) rd).
Proof.
  induction todo as [|todo IH]; intros idx n rd s e nqs nq w sc w' H B len Htodo Hidx Hlen.
  - simpl in H. inversion H. simpl.
    repeat split; try lia; try discriminate; auto.
  - simpl in H. unfold bind_wrap in H.
    destruct (fetchBlockHashByNum (Int64.sub n idx) w) as [r0 w1] eqn:Hf.
    assert (Ht1 : tracker w1 = tracker w).
    { destruct (fetchBlockHashByNum_cases _ _ _ _ Hf) as [[-> _]|[Ht1 _]]; auto. }
    destruct r0 as [h|e0| |]; try discriminate.
    destruct (hashesOverlapIndexes_spec rd idx (Int64.sub n idx) h w1)
      as (found & s1 & e1 & nqs1 & evs1 & Ho & Hacc & Hyes & Hno & _ & _).
    unfold bind at 1 in H. rewrite Ho in H. rewrite Ht1 in *.
    assert (HB : Int64.in_range B) by apply Int64_wrap_in_range.
    destruct found.
    + unfold ret in H. inversion H. simpl.
      destruct (Hyes eq_refl) as (-> & -> & -> & _).
      repeat split; try lia; try discriminate; auto.
      exists h. apply Hacc. reflexivity.
    + destruct (Hno eq_refl) as (-> & -> & ->).
      unfold bind, get, lift in H. simpl in H. rewrite Ht1 in H. fold B in H.
      assert (Hslot : Int64.sub (Int64.sub B 1) idx = B - 1 - idx) by int64_lia.
      rewrite Hslot in H.
      rewrite (store_in_range nq (B - 1 - idx)) in H by lia.
      assert (Hnext : Int64.add idx 1 = idx + 1) by int64_lia.
      rewrite Hnext in H.
      specialize (IH _ _ _ _ _ _ _ _ _ _ H). simpl in IH. rewrite Ht1 in IH.
      fold B in IH. fold len in IH. rewrite length_insert in IH.
      destruct (IH ltac:(lia) ltac:(lia) Hlen) as (I1 & I2 & I3 & I4 & I5 & I6).
      split; [exact I1|]. split; [lia|].
      split.
      { intros j Hj. rewrite I3 by lia. apply list_lookup_insert_ne. lia. }
      split.
      { intros j Hj. destruct (Z.eq_dec j idx) as [->|Hne].
        - exists h. rewrite I3 by lia. apply list_lookup_insert_eq. lia.
        - apply I4. lia. }
      split.
      { intros Hnf. destruct (I5 Hnf) as (J1 & J2 & J3). split; [exact J1|].
        split; [intros; discriminate|]. intros _.
        destruct todo; [apply J2; reflexivity|apply J3; lia]. }
      exact I6.
Qed.

(** ** The write and the repair *)

(** The window [replaceBlocksQueue] installs, from the existing one and
    the outcome of the scan. *)
Definition new_window (q : list BlockStore) (sc : scan) : result (list BlockStore) :=
  if scan_newQueueStartIndex sc >? 0 then
    match slice q (scan_blocksQueueStartIndex sc) (scan_blocksQueueEndIndex sc) with
    | Ok kept =>
      result_map (app kept)
        (slice_from (scan_newBlocksQueue sc) (scan_newQueueStartIndex sc))
    | Err e => Err e
    | Panic => Panic
    | OutOfFuel => OutOfFuel
    end
  else Ok (scan_newBlocksQueue sc).

Definition with_tracker (w : World) (cs : ChainTracker) : World :=
  {| remote := remote w; tracker := cs; trace := trace w |}.

(** Whether the repair moves the logging checkpoint. *)
Definition checkpoint_due (readIndexDiff latestBlock : Z) (cs : ChainTracker) : bool :=
  (readIndexDiff >? 1)
  || (Uint64.add (blockCheckpoint cs) (blockCheckpointDistance cs)
        <? Uint64.of_int64 latestBlock).

(** [fetchAllPreviousBlocks], one case per way it can end. *)
Lemma fetchAllPreviousBlocks_eq (n : Z) (w : World) :
  let cs := tracker w in
  let B := Int64.of_uint64 (blocksToSave cs) in
  let c := GetLatestBlockNum cs in
  let rd := Int64.sub n c in
  fetchAllPreviousBlocks n w =
  if B <? 0 then (Panic, w)
  else if n <? c then
    (Err (ErrOlderThanCurrent n c), extend w [EvLogError (ErrOlderThanCurrent n c)])
  else
    match readHashes_loop (Z.to_nat B) 0 n rd 0 0 0
            (replicate (Z.to_nat B) {| Block := 0; Hash := "" |}) w with
    | (Ok sc, w1) =>
      match new_window (blocksQueue (tracker w1)) sc with
      | Ok q' =>
        let cs1 := set_blocksQueue q' (set_latestBlockNum n (tracker w1)) in
        if Z.of_nat (length q') <? blocksToSave cs then
          (Err (ErrDidntSaveEnoughBlocks (Z.of_nat (length q'))),
           extend (with_tracker w1 cs1)
             [EvLogError (ErrDidntSaveEnoughBlocks (Z.of_nat (length q')))])
        else
          (Ok (Hash (getLatestBlockUnsafe cs1)),
           with_tracker w1
             (if checkpoint_due rd n cs1
              then set_blockCheckpoint (Uint64.of_int64 n) cs1 else cs1))
      | Err e => (Err e, with_tracker w1 (set_latestBlockNum n (tracker w1)))
      | Panic => (Panic, with_tracker w1 (set_latestBlockNum n (tracker w1)))
      | OutOfFuel => (OutOfFuel, with_tracker w1 (set_latestBlockNum n (tracker w1)))
      end
    | (Err e, w1) => (Err e, w1)
    | (Panic, w1) => (Panic, w1)
    | (OutOfFuel, w1) => (OutOfFuel, w1)
    end.
Proof.
  intros cs B c rd.
  unfold fetchAllPreviousBlocks, bind at 1, get. fold cs. fold B.
  unfold bind at 1, lift, make.
  destruct (B <? 0); [reflexivity|].
  fold c. destruct (n <? c); [reflexivity|]. fold rd.
  unfold bind at 1, readHashes, bind at 1, get. fold cs. fold B.
  unfold bind at 1.
  destruct (readHashes_loop _ _ _ _ _ _ _ _ w) as [[sc|e| |] w1]; try reflexivity.
  unfold ret at 1. unfold bind at 1.
  unfold replaceBlocksQueue, setLatestBlockNum, bind at 1, modify at 1.
  unfold new_window, with_tracker, checkpoint_due.
  destruct (scan_newQueueStartIndex sc >? 0).
  - unfold bind at 1, bind at 1, get at 1. simpl tracker. simpl blocksQueue.
    unfold bind at 1, lift at 1.
    destruct (slice (blocksQueue (tracker w1)) _ _) as [kept| | |]; try reflexivity.
    unfold bind at 1, lift at 1.
    destruct (slice_from (scan_newBlocksQueue sc) _) as [tail| | |]; try reflexivity.
    unfold bind at 1, modify at 1, ret at 1, bind at 1, get at 1, ret at 1.
    simpl. destruct (_ <? blocksToSave cs); [reflexivity|].
    unfold bind, get, modify, ret. simpl.
    destruct (_ || _); reflexivity.
  - unfold bind at 1, bind at 1, modify at 1, ret at 1, bind at 1, get at 1, ret at 1.
    simpl. destruct (_ <? blocksToSave cs); [reflexivity|].
    unfold bind, get, modify, ret. simpl.
    destruct (_ || _); reflexivity.
Qed.

Lemma slice_Ok {A} (l : list A) (s e : Z) (k : list A) :
  slice l s e = Ok k ->
  0 <= s <= e /\ e <= Z.of_nat (length l) /\
  k = take (Z.to_nat (e - s)) (drop (Z.to_nat s) l).
Proof.
  unfold slice.
  destruct (Z.leb_spec 0 s) as [H0|H0]; simpl; [|discriminate].
  destruct (Z.leb_spec s e) as [H1|H1]; simpl; [|discriminate].
  destruct (Z.leb_spec e (Z.of_nat (length l))) as [H2|H2]; [|discriminate].
  intros H. inversion H. repeat split; lia.
Qed.

Lemma slice_in_range {A} (l : list A) (s e : Z) :
  0 <= s <= e -> e <= Z.of_nat (length l) ->
  slice l s e = Ok (take (Z.to_nat (e - s)) (drop (Z.to_nat s) l)).
Proof.
  intros Hs He. unfold slice.
  destruct (Z.leb_spec 0 s) as [H0|H0]; [|lia].
  destruct (Z.leb_spec s e) as [H1|H1]; [|lia].
  destruct (Z.leb_spec e (Z.of_nat (length l))) as [H2|H2]; [|lia]. reflexivity.
Qed.

Lemma slice_from_Ok {A} (l : list A) (s : Z) (k : list A) :
  slice_from l s = Ok k ->
  0 <= s <= Z.of_nat (length l) /\ k = drop (Z.to_nat s) l.
Proof.
  unfold slice_from.
  destruct (Z.leb_spec 0 s) as [H0|H0]; simpl; [|discriminate].
  destruct (Z.leb_spec s (Z.of_nat (length l))) as [H1|H1]; [|discriminate].
  intros H. inversion H. repeat split; lia.
Qed.

Lemma slice_from_in_range {A} (l : list A) (s : Z) :
  0 <= s <= Z.of_nat (length l) -> slice_from l s = Ok (drop (Z.to_nat s) l).
Proof.
  intros Hs. unfold slice_from.
  destruct (Z.leb_spec 0 s) as [H0|H0]; [|lia].
  destruct (Z.leb_spec s (Z.of_nat (length l))) as [H1|H1]; [|lia]. reflexivity.
Qed.

Lemma new_window_no_error q sc e : new_window q sc <> Err e.
Proof.
  unfold new_window, slice, slice_from.
  destruct (_ >? 0); [|discriminate].
  destruct (_ && _); [|discriminate].
  destruct (_ && _); discriminate.
Qed.

(** Whatever the scan found, the window that is installed is as long as
    the new queue: the records kept and the records dropped from the new
    queue are equally many. *)
Lemma new_window_length q sc q' :
  scan_newQueueStartIndex sc =
    Int64.sub (scan_blocksQueueEndIndex sc) (scan_blocksQueueStartIndex sc) ->
  Int64.in_range (scan_blocksQueueEndIndex sc) ->
  new_window q sc = Ok q' ->
  length q' = length (scan_newBlocksQueue sc).
Proof.
  intros Hn He. unfold new_window.
  destruct (Z.gtb_spec (scan_newQueueStartIndex sc) 0) as [Hpos|Hz].
  2:{ intros H. inversion H. reflexivity. }
  destruct (slice q _ _) as [kept| | |] eqn:Hs; try discriminate.
  destruct (slice_from _ _) as [tail| | |] eqn:Ht; try discriminate.
  simpl. intros H. inversion H as [Hq]. clear H Hq.
  apply slice_Ok in Hs. destruct Hs as (Hs1 & Hs2 & ->).
  apply slice_from_Ok in Ht. destruct Ht as (Hs3 & ->).
  rewrite length_app, length_take, !length_drop.
  assert (scan_newQueueStartIndex sc =
          scan_blocksQueueEndIndex sc - scan_blocksQueueStartIndex sc).
  { rewrite Hn. apply Int64_sub_id. int64_lia. }
  lia.
Qed.

Lemma scan_indexes_consistent n rd nq (w : World) sc w' :
  let B := Int64.of_uint64 (blocksToSave (tracker w)) in
  0 <= B -> Z.of_nat (length nq) = B ->
  readHashes_loop (Z.to_nat B) 0 n rd 0 0 0 nq w = (Ok sc, w') ->
  scan_newQueueStartIndex sc =
    Int64.sub (scan_blocksQueueEndIndex sc) (scan_blocksQueueStartIndex sc) /\
  Int64.in_range (scan_blocksQueueEndIndex sc) /\
  length (scan_newBlocksQueue sc) = length nq.
Proof.
  intros B HB Hlen H.
  destruct (readHashes_loop_Ok _ _ _ _ _ _ _ _ _ _ _ H ltac:(fold B; lia) ltac:(lia)
              ltac:(fold B; lia)) as (I1 & _ & _ & _ & I5 & I6).
  destruct (scan_foundOverlap sc).
  - destruct (I6 eq_refl) as (_ & _ & J1 & J2 & J3).
    rewrite J3, J1, J2.
    split; [reflexivity|]. split; [apply Int64_wrap_in_range|exact I1].
  - destruct (I5 eq_refl) as (_ & J1 & J2).
    assert (scan_blocksQueueStartIndex sc = 0 /\ scan_blocksQueueEndIndex sc = 0 /\
            scan_newQueueStartIndex sc = 0) as (-> & -> & ->).
    { destruct (Z.to_nat B); [apply J1; reflexivity|apply J2; lia]. }
    split; [reflexivity|]. split; [int64_lia|exact I1].
Qed.

Lemma readHashes_loop_Err todo : forall idx n rd s e nqs nq (w : World) err w',
  readHashes_loop todo idx n rd s e nqs nq w = (Err err, w') ->
  exists b e0, err = ErrCouldNotGetBlockData b e0.
Proof.
  induction todo as [|todo IH]; intros idx n rd s e nqs nq w err w' H.
  - simpl in H. discriminate.
  - simpl in H. unfold bind_wrap in H.
    destruct (fetchBlockHashByNum (Int64.sub n idx) w) as [[h|e0| |] w1]; try discriminate.
    + destruct (hashesOverlapIndexes_spec rd idx (Int64.sub n idx) h w1)
        as (found & s1 & e1 & nqs1 & evs1 & Ho & _).
      unfold bind at 1 in H. rewrite Ho in H.
      destruct found; [discriminate|].
      unfold bind, get, lift in H. simpl in H.
      unfold store in H. destruct (_ && _); [|discriminate]. eauto.
    + unfold LavaFormatError in H. inversion H. eauto.
Qed.

(** An error of the repair leaves the tracker as it was: the check of the
    queue length, which comes after the write, never fails. *)
Lemma fetchAllPreviousBlocks_Err (n : Z) (w : World) err w' :
  Uint64.in_range (blocksToSave (tracker w)) ->
  fetchAllPreviousBlocks n w = (Err err, w') ->
  tracker w' = tracker w /\
  ((n < latestBlockNum (tracker w) /\
    err = ErrOlderThanCurrent n (latestBlockNum (tracker w))) \/
   (latestBlockNum (tracker w) <= n /\
    exists b e0, err = ErrCouldNotGetBlockData b e0)).
Proof.
  intros Hbts. rewrite fetchAllPreviousBlocks_eq. cbv zeta.
  destruct (Z.ltb_spec (Int64.of_uint64 (blocksToSave (tracker w))) 0) as [HB|HB];
    [discriminate|].
  unfold GetLatestBlockNum.
  destruct (Z.ltb_spec n (latestBlockNum (tracker w))) as [Hold|Hnew].
  { intros H. inversion H. simpl. split; [reflexivity|]. left. auto. }
  destruct (readHashes_loop _ _ _ _ _ _ _ _ w) as [[sc|e| |] w1] eqn:Hscan;
    try discriminate.
  - destruct (readHashes_loop_events _ _ _ _ _ _ _ _ _ _ _ Hscan) as (Ht & _).
    assert (Hrep : Z.of_nat (length (replicate
                      (Z.to_nat (Int64.of_uint64 (blocksToSave (tracker w))))
                      {| Block := 0; Hash := "" |})) =
                   Int64.of_uint64 (blocksToSave (tracker w))).
    { rewrite length_replicate. lia. }
    destruct (scan_indexes_consistent _ _ _ _ _ _ HB Hrep Hscan) as (C1 & C2 & C3).
    destruct (new_window _ sc) as [q'|e| |] eqn:Hnw; try discriminate.
    + pose proof (new_window_length _ _ _ C1 C2 Hnw) as Hlen.
      rewrite C3, length_replicate in Hlen.
      destruct (Int64_of_uint64_nonneg _ Hbts HB) as (HBeq & _).
      destruct (Z.ltb_spec (Z.of_nat (length q')) (blocksToSave (tracker w)));
        [lia|discriminate].
    + exfalso. exact (new_window_no_error _ _ _ Hnw).
  - intros H. inversion H. subst.
    destruct (readHashes_loop_events _ _ _ _ _ _ _ _ _ _ _ Hscan) as (Ht & _).
    split; [exact Ht|]. right. split; [exact Hnew|].
    eapply readHashes_loop_Err. exact Hscan.
Qed.

(** ** The window after a repair *)

Lemma blocks_lookup (q : list BlockStore) (a B : Z) :
  Block <$> q = seqZ a B ->
  forall m : nat, Z.of_nat m < B ->
    exists x, q !! m = Some x /\ Block x = a + Z.of_nat m.
Proof.
  intros Hq m Hm.
  assert (H : (Block <$> q) !! m = Some (a + Z.of_nat m)).
  { rewrite Hq. apply lookup_seqZ_lt. exact Hm. }
  rewrite list_lookup_fmap in H.
  destruct (q !! m) as [x|]; [|discriminate].
  simpl in H. inversion H. eauto.
Qed.

Lemma blocks_length (q : list BlockStore) (a B : Z) :
  Block <$> q = seqZ a B -> length q = Z.to_nat B.
Proof.
  intros Hq. apply (f_equal length) in Hq.
  rewrite length_fmap, length_seqZ in Hq. exact Hq.
Qed.

(** A list whose slot [B - 1 - j] holds block [n - j] for every [j] lists
    the blocks [n - B + 1 .. n]. *)
Lemma blocks_of_slots (l : list BlockStore) (n B : Z) :
  Z.of_nat (length l) = B ->
  (forall j, 0 <= j < B ->
     exists hj, l !! Z.to_nat (B - 1 - j) = Some {| Block := n - j; Hash := hj |}) ->
  Block <$> l = seqZ (n - B + 1) B.
Proof.
  intros Hlen Hslots. apply list_eq. intros p.
  rewrite list_lookup_fmap.
  destruct (Z.lt_ge_cases (Z.of_nat p) B) as [Hp|Hp].
  - rewrite lookup_seqZ_lt by exact Hp.
    destruct (Hslots (B - 1 - Z.of_nat p) ltac:(lia)) as [hj Hj].
    replace (Z.to_nat (B - 1 - (B - 1 - Z.of_nat p))) with p in Hj by lia.
    rewrite Hj. simpl. f_equal. lia.
  - rewrite lookup_seqZ_ge by exact Hp.
    rewrite (lookup_ge_None_2 l p) by lia. reflexivity.
Qed.

(** The outcome of a scan started in a state the tracker can be in: the
    window installed lists the blocks [n - blocksToSave + 1 .. n]; if the
    scan stopped at an anchor it is the splice, else the new queue. *)
Lemma scan_window (n : Z) (w : World) sc w1 :
  let cs := tracker w in
  let bts := blocksToSave cs in
  let c := latestBlockNum cs in
  let q := blocksQueue cs in
  let len := Z.of_nat (length q) in
  let rd := Int64.sub n c in
  bootstrap_state cs \/ window_inv cs ->
  Int64.in_range n -> c <= n ->
  readHashes_loop (Z.to_nat (Int64.of_uint64 bts)) 0 n rd 0 0 0
    (replicate (Z.to_nat (Int64.of_uint64 bts)) {| Block := 0; Hash := "" |}) w
    = (Ok sc, w1) ->
  exists q',
    new_window q sc = Ok q' /\
    Block <$> q' = seqZ (n - bts + 1) bts /\
    (scan_foundOverlap sc = true ->
     let i := scan_idx sc in
     let overwrite := len - 1 + (n - c) - i + 1 in
     0 <= i < bts /\
     rd = n - c /\ existing_idx len rd i = len - 1 + (n - c) - i /\
     (exists h, anchor_accepted cs rd i (n - i) h) /\
     bts - 1 - i <= overwrite /\ rd <= overwrite /\
     q' = take (Z.to_nat (overwrite - rd)) (drop (Z.to_nat rd) q) ++
          drop (Z.to_nat (overwrite - rd)) (scan_newBlocksQueue sc)) /\
    (scan_foundOverlap sc = false ->
     scan_idx sc = bts /\ q' = scan_newBlocksQueue sc).
Proof.
  intros cs bts c q len rd Hpre Hn Hcn Hscan.
  assert (Hbts : 0 <= bts <= Int64.max_int /\ Int64.min_int <= n - bts + 1).
  { destruct Hpre as [(_ & Hc0 & Hb)|(Hb & _ & Hmin & _)]; fold bts in Hb.
    - fold c in Hc0. split; [exact Hb|]. int64_lia.
    - fold c bts in Hmin. split; lia. }
  destruct Hbts as (Hb & Hmin).
  assert (HB : Int64.of_uint64 bts = bts) by (apply Int64_wrap_id; int64_lia).
  rewrite HB in Hscan.
  assert (Hsub : forall j, 0 <= j < bts -> Int64.sub n j = n - j).
  { intros j Hj. apply Int64_sub_id. int64_lia. }
  destruct (readHashes_loop_Ok _ _ _ _ _ _ _ _ _ _ _ Hscan) as (I1 & I2 & I3 & I4 & I5 & I6).
  { fold cs bts. rewrite HB. lia. }
  { lia. }
  { fold cs bts. rewrite HB, length_replicate. lia. }
  fold cs bts in I2, I3, I4, I5, I6. rewrite HB in I2, I3, I4, I5, I6.
  rewrite length_replicate in I1.
  assert (Hslots : forall j, 0 <= j < scan_idx sc ->
            exists hj, scan_newBlocksQueue sc !! Z.to_nat (bts - 1 - j) =
                       Some {| Block := n - j; Hash := hj |}).
  { intros j Hj. destruct (I4 j ltac:(lia)) as [hj Hhj]. exists hj.
    rewrite Hhj. rewrite Hsub by lia. reflexivity. }
  destruct (scan_foundOverlap sc) eqn:Hfound.
  - (* stopped at an anchor *)
    destruct (I6 eq_refl) as (Hi & (h & Hacc) & Js & Je & Jn).
    fold q len rd in Je.
    destruct Hpre as [(Hq0 & _)|(Hb' & Hq & Hmin' & Hmax')].
    { exfalso. destruct Hacc as (_ & Hei & _).
      rewrite Hq0 in Hei. simpl in Hei. int64_lia. }
    fold c bts q in Hq. fold bts in Hb'. fold c bts in Hmin'. fold c in Hmax'.
    assert (Hlen : len = bts).
    { subst len. rewrite (blocks_length _ _ _ Hq). lia. }
    destruct Hacc as (Hrd & Hei & (x & Hx & Hxb & Hxh) & Hpol1 & Hpol2).
    fold q len rd in Hrd, Hei, Hx, Hpol1, Hpol2.
    set (ei := existing_idx len rd (scan_idx sc)) in *.
    assert (Heilen : 0 < ei <= len - 1).
    { rewrite Int64_sub_id in Hei by int64_lia. exact Hei. }
    destruct (blocks_lookup _ _ _ Hq (Z.to_nat ei) ltac:(lia)) as (x' & Hx' & Hxb').
    rewrite Hx in Hx'. inversion Hx'. subst x'.
    rewrite Hsub in Hxb by lia.
    assert (Hrdeq : rd = n - c).
    { subst rd. apply Int64_sub_id. int64_lia. }
    assert (Heieq : ei = len - 1 + (n - c) - scan_idx sc) by lia.
    assert (Hee : scan_blocksQueueEndIndex sc = ei + 1).
    { rewrite Je. apply Int64_add_id. int64_lia. }
    assert (Hnn : scan_newQueueStartIndex sc = bts - scan_idx sc).
    { rewrite Jn, Hee. rewrite Int64_sub_id by int64_lia. lia. }
    exists (take (Z.to_nat (ei + 1 - rd)) (drop (Z.to_nat rd) q) ++
            drop (Z.to_nat (ei + 1 - rd)) (scan_newBlocksQueue sc)).
    split.
    { unfold new_window. rewrite Hnn, Js, Hee.
      destruct (Z.gtb_spec (bts - scan_idx sc) 0) as [_|Hbad]; [|lia].
      rewrite slice_in_range by lia.
      rewrite slice_from_in_range by lia. simpl.
      replace (Z.to_nat (bts - scan_idx sc)) with (Z.to_nat (ei + 1 - rd)) by lia.
      reflexivity. }
    split.
    { apply list_eq. intros p. rewrite list_lookup_fmap.
      assert (Hk : length (take (Z.to_nat (ei + 1 - rd)) (drop (Z.to_nat rd) q))
                   = Z.to_nat (ei + 1 - rd)).
      { rewrite length_take, length_drop. lia. }
      destruct (Z.lt_ge_cases (Z.of_nat p) (ei + 1 - rd)) as [Hp|Hp].
      - rewrite lookup_app_l by lia.
        rewrite lookup_take_lt by lia. rewrite lookup_drop.
        destruct (blocks_lookup _ _ _ Hq (Z.to_nat rd + p)%nat ltac:(lia))
          as (y & Hy & Hyb).
        rewrite Hy. simpl. rewrite lookup_seqZ_lt by lia. f_equal. lia.
      - rewrite lookup_app_r by lia. rewrite Hk. rewrite lookup_drop.
        replace (Z.to_nat (ei + 1 - rd) + (p - Z.to_nat (ei + 1 - rd)))%nat
          with p by lia.
        destruct (Z.lt_ge_cases (Z.of_nat p) bts) as [Hpb|Hpb].
        + destruct (Hslots (bts - 1 - Z.of_nat p) ltac:(lia)) as [hj Hj].
          replace (Z.to_nat (bts - 1 - (bts - 1 - Z.of_nat p))) with p in Hj by lia.
          rewrite Hj. simpl. rewrite lookup_seqZ_lt by lia. f_equal. lia.
        + rewrite lookup_seqZ_ge by lia.
          rewrite (lookup_ge_None_2 (scan_newBlocksQueue sc) p) by lia.
          reflexivity. }
    split; [|discriminate].
    intros _. cbv zeta.
    replace (len - 1 + (n - c) - scan_idx sc + 1) with (ei + 1) by lia.
    split; [lia|]. split; [exact Hrdeq|]. split; [exact Heieq|].
    split.
    { exists h. rewrite <- Hsub by lia.
      unfold anchor_accepted. fold q len rd ei. cbv zeta.
      repeat split; try lia; eauto.
      exists x. rewrite Hsub by lia. auto. }
    split; [lia|]. split; [lia|reflexivity].
  - (* every iteration ran *)
    destruct (I5 eq_refl) as (Hidx & J1 & J2).
    assert (scan_newQueueStartIndex sc = 0) as Hn0.
    { destruct (Z.to_nat bts); [apply J1; reflexivity|apply J2; lia]. }
    exists (scan_newBlocksQueue sc).
    split.
    { unfold new_window. rewrite Hn0. reflexivity. }
    split.
    { apply blocks_of_slots; [lia|]. intros j Hj. apply Hslots. lia. }
    split; [discriminate|]. intros _. split; [exact Hidx|reflexivity].
Qed.

(** ** The repair that succeeds *)

(** The tracker a successful repair to [n] leaves, given the window [q']. *)
Definition repaired_tracker (n rd : Z) (q' : list BlockStore) (cs : ChainTracker)
    : ChainTracker :=
  let cs1 := set_blocksQueue q' (set_latestBlockNum n cs) in
  if checkpoint_due rd n cs1 then set_blockCheckpoint (Uint64.of_int64 n) cs1 else cs1.

Lemma repaired_tracker_fields n rd q' cs :
  blocksQueue (repaired_tracker n rd q' cs) = q' /\
  latestBlockNum (repaired_tracker n rd q' cs) = n /\
  blocksToSave (repaired_tracker n rd q' cs) = blocksToSave cs /\
  forkCallback (repaired_tracker n rd q' cs) = forkCallback cs /\
  newLatestCallback (repaired_tracker n rd q' cs) = newLatestCallback cs /\
  serverBlockMemory (repaired_tracker n rd q' cs) = serverBlockMemory cs /\
  ticker (repaired_tracker n rd q' cs) = ticker cs.
Proof.
  unfold repaired_tracker. cbv zeta. destruct (checkpoint_due _ _ _); simpl; auto 10.
Qed.

Lemma getLatestBlockUnsafe_queue cs cs' :
  blocksQueue cs = blocksQueue cs' -> getLatestBlockUnsafe cs = getLatestBlockUnsafe cs'.
Proof. unfold getLatestBlockUnsafe. intros ->. reflexivity. Qed.

(** Every successful repair is a scan that came to its end followed by
    the write of the window that scan calls for. *)
Lemma fetchAllPreviousBlocks_Ok (n : Z) (w : World) h w' :
  fetchAllPreviousBlocks n w = (Ok h, w') ->
  let cs := tracker w in
  let B := Int64.of_uint64 (blocksToSave cs) in
  let rd := Int64.sub n (latestBlockNum cs) in
  0 <= B /\ latestBlockNum cs <= n /\
  exists sc w1 q',
    readHashes_loop (Z.to_nat B) 0 n rd 0 0 0
      (replicate (Z.to_nat B) {| Block := 0; Hash := "" |}) w = (Ok sc, w1) /\
    tracker w1 = cs /\
    new_window (blocksQueue cs) sc = Ok q' /\
    w' = with_tracker w1 (repaired_tracker n rd q' cs) /\
    h = Hash (getLatestBlockUnsafe (tracker w')).
Proof.
  rewrite fetchAllPreviousBlocks_eq. cbv zeta. unfold GetLatestBlockNum.
  destruct (Z.ltb_spec (Int64.of_uint64 (blocksToSave (tracker w))) 0) as [HB|HB];
    [discriminate|].
  destruct (Z.ltb_spec n (latestBlockNum (tracker w))) as [Hold|Hnew]; [discriminate|].
  destruct (readHashes_loop _ _ _ _ _ _ _ _ w) as [[sc|e| |] w1] eqn:Hscan;
    try discriminate.
  destruct (readHashes_loop_events _ _ _ _ _ _ _ _ _ _ _ Hscan) as (Ht & _).
  rewrite Ht.
  destruct (new_window _ sc) as [q'|e| |] eqn:Hnw; try discriminate.
  destruct (_ <? blocksToSave (tracker w)); [discriminate|].
  intros H. inversion H. split; [exact HB|]. split; [exact Hnew|].
  exists sc, w1, q'. repeat split; auto.
  simpl. apply f_equal. apply getLatestBlockUnsafe_queue.
  unfold repaired_tracker. cbv zeta. destruct (checkpoint_due _ _ _); reflexivity.
Qed.

(** Conversely, such a scan and window make the repair succeed. *)
Lemma fetchAllPreviousBlocks_intro (n : Z) (w : World) sc w1 q' :
  let cs := tracker w in
  let B := Int64.of_uint64 (blocksToSave cs) in
  let rd := Int64.sub n (latestBlockNum cs) in
  0 <= B -> latestBlockNum cs <= n ->
  readHashes_loop (Z.to_nat B) 0 n rd 0 0 0
    (replicate (Z.to_nat B) {| Block := 0; Hash := "" |}) w = (Ok sc, w1) ->
  new_window (blocksQueue cs) sc = Ok q' ->
  blocksToSave cs <= Z.of_nat (length q') ->
  fetchAllPreviousBlocks n w =
    (Ok (Hash (getLatestBlockUnsafe (repaired_tracker n rd q' cs))),
     with_tracker w1 (repaired_tracker n rd q' cs)).
Proof.
  intros cs B rd HB Hnew Hscan Hnw Hlen.
  rewrite fetchAllPreviousBlocks_eq. cbv zeta. unfold GetLatestBlockNum.
  fold cs. fold B. fold rd.
  destruct (Z.ltb_spec B 0) as [HB'|_]; [lia|].
  destruct (Z.ltb_spec n (latestBlockNum cs)) as [Hold|_]; [lia|].
  rewrite Hscan.
  destruct (readHashes_loop_events _ _ _ _ _ _ _ _ _ _ _ Hscan) as (Ht & _).
  rewrite Ht. fold cs. rewrite Hnw.
  destruct (Z.ltb_spec (Z.of_nat (length q')) (blocksToSave cs)) as [Hbad|_]; [lia|].
  assert (Hh : getLatestBlockUnsafe (set_blocksQueue q' (set_latestBlockNum n cs)) =
               getLatestBlockUnsafe (repaired_tracker n rd q' cs)).
  { apply getLatestBlockUnsafe_queue.
    unfold repaired_tracker. cbv zeta. destruct (checkpoint_due _ _ _); reflexivity. }
  rewrite Hh. reflexivity.
Qed.

(** ** The window invariant *)

Lemma window_inv_ok (cs : ChainTracker) : window_inv cs -> window_ok cs.
Proof.
  intros (Hb & Hq & Hmin & Hmax).
  pose proof (blocks_length _ _ _ Hq) as Hlen.
  split; [lia|]. split.
  - intros i x y Hx Hy.
    assert (Hi : Z.of_nat (S i) < blocksToSave cs).
    { apply lookup_lt_Some in Hy. lia. }
    destruct (blocks_lookup _ _ _ Hq i ltac:(lia)) as (x' & Hx' & Hxb).
    destruct (blocks_lookup _ _ _ Hq (S i) Hi) as (y' & Hy' & Hyb).
    rewrite Hx in Hx'. rewrite Hy in Hy'. inversion Hx'. inversion Hy'. subst. lia.
  - destruct (blocks_lookup _ _ _ Hq (pred (length (blocksQueue cs))) ltac:(lia))
      as (x & Hx & Hxb).
    exists x. rewrite last_lookup. split; [exact Hx|]. lia.
Qed.

Lemma repair_window_inv (n : Z) (w : World) h w' :
  bootstrap_state (tracker w) \/ window_inv (tracker w) ->
  0 < blocksToSave (tracker w) -> Int64.in_range n ->
  fetchAllPreviousBlocks n w = (Ok h, w') ->
  window_inv (tracker w').
Proof.
  intros Hpre Hpos Hn Hok.
  destruct (fetchAllPreviousBlocks_Ok _ _ _ _ Hok)
    as (HB & Hcn & sc & w1 & q' & Hscan & Ht & Hnw & -> & _).
  destruct (scan_window n w sc w1 Hpre Hn Hcn Hscan) as (q'' & Hnw' & Hblocks & _).
  rewrite Hnw in Hnw'. inversion Hnw'. subst q''.
  simpl tracker.
  destruct (repaired_tracker_fields n (Int64.sub n (latestBlockNum (tracker w))) q'
              (tracker w)) as (F1 & F2 & F3 & _).
  unfold window_inv. rewrite F1, F2, F3.
  assert (Hb : blocksToSave (tracker w) <= Int64.max_int /\
               Int64.min_int <= n - blocksToSave (tracker w) + 1).
  { destruct Hpre as [(_ & Hc0 & Hb)|(Hb & _ & Hmin & _)].
    - split; [lia|]. int64_lia.
    - split; lia. }
  repeat split; try lia; auto. apply Hn.
Qed.

(** ** The bootstrap *)

Lemma fetchLatestBlockNum_cases (w : World) res w' :
  fetchLatestBlockNum w = (res, w') ->
  tracker w' = tracker w /\
  trace w' = trace w ++ [EvFetchLatestBlockNum res] /\
  FetchLatestBlockNum (remote w) = (res, remote w').
Proof.
  unfold fetchLatestBlockNum.
  destruct (FetchLatestBlockNum (remote w)) as [res0 r'].
  intros H. inversion H. simpl. auto.
Qed.

(** A success of the retry loop is a success of one of the calls, made
    in a world that keeps whatever the failing calls keep. *)
Lemma retry_Ok {A} (I : World -> Prop) (m : M A) :
  (forall w e w', I w -> m w = (Err e, w') -> I w') ->
  forall retries res (w0 w1 : World) a w',
    I w0 -> m w0 = (res, w1) ->
    retry retries m res w1 = (Ok a, w') ->
    exists v, I v /\ m v = (Ok a, w').
Proof.
  intros Hkeep. induction retries as [|k IH]; intros res w0 w1 a w' HI Hm Hr.
  - simpl in Hr. destruct res; inversion Hr; subst; eauto.
  - simpl in Hr. destruct res as [x|e| |]; try (inversion Hr; subst; eauto; fail).
    destruct (m w1) as [res' w2] eqn:Hm'.
    eapply (IH res' w1 w2); eauto.
Qed.

Lemma with_retry_Ok {A} (I : World -> Prop) (m : M A) retries :
  (forall w e w', I w -> m w = (Err e, w') -> I w') ->
  forall (w : World) a w',
    I w -> with_retry retries m w = (Ok a, w') ->
    exists v, I v /\ m v = (Ok a, w').
Proof.
  intros Hkeep w a w' HI H. unfold with_retry in H.
  destruct (m w) as [res w1] eqn:Hm.
  eapply retry_Ok; eauto.
Qed.

Lemma fetchInitDataWithRetry_Ok (w : World) w' :
  Uint64.in_range (blocksToSave (tracker w)) ->
  fetchInitDataWithRetry w = (Ok tt, w') ->
  exists n v h,
    Int64.in_range n /\ tracker v = tracker w /\
    fetchAllPreviousBlocks n v = (Ok h, w').
Proof.
  intros Hbts H. unfold fetchInitDataWithRetry, bind_wrap in H.
  destruct (with_retry initRetriesCount fetchLatestBlockNum w) as [[n|e| |] w1] eqn:H1;
    try discriminate.
  destruct (with_retry_Ok (fun v => tracker v = tracker w) fetchLatestBlockNum
              initRetriesCount) with (w := w) (a := n) (w' := w1)
    as (v1 & Hv1 & Hf1); auto.
  { intros v e v' Hv Hf. destruct (fetchLatestBlockNum_cases _ _ _ Hf) as (-> & _).
    exact Hv. }
  destruct (fetchLatestBlockNum_cases _ _ _ Hf1) as (Ht1 & _ & Hrem).
  pose proof (FetchLatestBlockNum_int64 _ _ _ Hrem) as Hn.
  destruct (with_retry initRetriesCount (fetchAllPreviousBlocks n) w1)
    as [[h|e| |] w2] eqn:H2; try discriminate.
  unfold ret in H. inversion H. subst w2.
  destruct (with_retry_Ok (fun v => tracker v = tracker w) (fetchAllPreviousBlocks n)
              initRetriesCount) with (w := w1) (a := h) (w' := w')
    as (v2 & Hv2 & Hf2); auto.
  { intros v e v' Hv Hf.
    destruct (fetchAllPreviousBlocks_Err n v e v') as (-> & _); auto.
    rewrite Hv. exact Hbts. }
  { congruence. }
  exists n, v2, h. auto.
Qed.

(** C3. A bootstrap that completes, and every successful repair after it,
    leaves the window full ([blocksToSave] records), contiguous (each
    block number one more than the one before it) and with
    [latestBlockNum] the number of its newest record. *)
Theorem window_invariant :
  (forall (w w' : World),
     bootstrap_state (tracker w) -> 0 < blocksToSave (tracker w) ->
     fetchInitDataWithRetry w = (Ok tt, w') ->
     window_inv (tracker w') /\ window_ok (tracker w')) /\
  (forall (n : Z) (w : World) h w',
     window_inv (tracker w) -> Int64.in_range n ->
     fetchAllPreviousBlocks n w = (Ok h, w') ->
     window_inv (tracker w') /\ window_ok (tracker w')).
Proof.
  split.
  - intros w w' Hboot Hpos Hinit.
    assert (Hbts : Uint64.in_range (blocksToSave (tracker w))).
    { destruct Hboot as (_ & _ & Hb). int64_lia. }
    destruct (fetchInitDataWithRetry_Ok _ _ Hbts Hinit) as (n & v & h & Hn & Hv & Hok).
    assert (Hinv : window_inv (tracker w')).
    { apply (repair_window_inv n v h w'); auto; rewrite Hv; auto. }
    split; [exact Hinv|apply window_inv_ok; exact Hinv].
  - intros n w h w' Hinv Hn Hok.
    assert (Hinv' : window_inv (tracker w')).
    { apply (repair_window_inv n w h w'); auto. destruct Hinv as (Hb & _). lia. }
    split; [exact Hinv'|apply window_inv_ok; exact Hinv'].
Qed.

(** ** Splice or wholesale replacement *)

(** C1. In a state the tracker can be in, a repair whose scan comes to its
    end succeeds and installs a window of [blocksToSave] records. If the
    scan stopped at an accepted anchor, at iteration [i] with
    [overwrite = existing_idx + 1] and [read_diff = n - latest], the
    window is [existing[read_diff .. overwrite]] followed by
    [new_queue[overwrite - read_diff ..]]; if it ran all [blocksToSave]
    iterations the window is the new queue; and with
    [read_diff >= len] no anchor is ever accepted. *)
Theorem repair_splices_or_replaces (n : Z) (w : World) sc w1 :
  let cs := tracker w in
  let bts := blocksToSave cs in
  let c := latestBlockNum cs in
  let existing := blocksQueue cs in
  let len := Z.of_nat (length existing) in
  let read_diff := Int64.sub n c in
  bootstrap_state cs \/ window_inv cs ->
  Int64.in_range n -> c <= n ->
  readHashes_loop (Z.to_nat (Int64.of_uint64 bts)) 0 n read_diff 0 0 0
    (replicate (Z.to_nat (Int64.of_uint64 bts)) {| Block := 0; Hash := "" |}) w
    = (Ok sc, w1) ->
  exists h w2,
    fetchAllPreviousBlocks n w = (Ok h, w2) /\
    Z.of_nat (length (blocksQueue (tracker w2))) = bts /\
    (scan_foundOverlap sc = true ->
     let i := scan_idx sc in
     let overwrite := existing_idx len read_diff i + 1 in
     0 <= i < bts /\
     read_diff = n - c /\
     existing_idx len read_diff i = len - 1 + read_diff - i /\
     (exists hash, anchor_accepted cs read_diff i (n - i) hash) /\
     bts - 1 - i <= overwrite /\ read_diff <= overwrite /\
     blocksQueue (tracker w2) =
       take (Z.to_nat (overwrite - read_diff)) (drop (Z.to_nat read_diff) existing) ++
       drop (Z.to_nat (overwrite - read_diff)) (scan_newBlocksQueue sc)) /\
    (scan_foundOverlap sc = false ->
     scan_idx sc = bts /\
     blocksQueue (tracker w2) = scan_newBlocksQueue sc) /\
    (len <= read_diff -> scan_foundOverlap sc = false).
Proof.
  intros cs bts c existing len read_diff Hpre Hn Hcn Hscan.
  destruct (scan_window n w sc w1 Hpre Hn Hcn Hscan)
    as (q' & Hnw & Hblocks & Hyes & Hno).
  fold cs bts c existing len read_diff in Hnw, Hblocks, Hyes, Hno.
  assert (Hb : 0 <= bts <= Int64.max_int).
  { destruct Hpre as [(_ & _ & Hb)|(Hb & _)]; fold bts in Hb; lia. }
  assert (HB : Int64.of_uint64 bts = bts) by (apply Int64_wrap_id; int64_lia).
  assert (Hlen : Z.of_nat (length q') = bts).
  { rewrite (blocks_length _ _ _ Hblocks). lia. }
  pose proof (fetchAllPreviousBlocks_intro n w sc w1 q') as Hrun.
  cbv zeta in Hrun. fold cs bts c existing read_diff in Hrun.
  specialize (Hrun ltac:(lia) Hcn Hscan Hnw ltac:(lia)).
  destruct (repaired_tracker_fields n read_diff q' cs) as (F1 & _).
  eexists. eexists. split; [exact Hrun|]. simpl tracker. rewrite F1.
  split; [exact Hlen|]. split.
  { intros Hf. destruct (Hyes Hf) as (Y1 & Y2 & Y3 & Y4 & Y5 & Y6 & Y7).
    cbv zeta. rewrite Y3.
    replace (len - 1 + read_diff - scan_idx sc + 1)
      with (len - 1 + (n - c) - scan_idx sc + 1) by lia.
    repeat split; auto; lia. }
  split.
  { intros Hf. destruct (Hno Hf) as (N1 & N2). auto. }
  intros Hge. destruct (scan_foundOverlap sc) eqn:Hf; [|reflexivity].
  destruct (Hyes eq_refl) as (_ & _ & _ & (hash & Hacc) & _).
  destruct Hacc as (Hlt & _). fold cs existing len read_diff in Hlt. lia.
Qed.

(** ** Errors of the repair *)

Lemma fetchAllPreviousBlocks_fetch_error (n : Z) (w : World) res w' evs b err :
  fetchAllPreviousBlocks n w = (res, w') ->
  trace w' = trace w ++ evs ->
  In (EvFetchBlockHashByNum b (Err err)) evs ->
  res = Err (ErrCouldNotGetBlockData b err) /\ tracker w' = tracker w.
Proof.
  rewrite fetchAllPreviousBlocks_eq. cbv zeta.
  destruct (_ <? 0).
  { intros H Htr Hin. inversion H. subst w'.
    assert (evs = []) by (apply (app_inv_head (trace w)); rewrite app_nil_r; auto).
    subst evs. destruct Hin. }
  destruct (_ <? _).
  { intros H Htr Hin. inversion H. subst w'. simpl in Htr.
    apply app_inv_head in Htr. subst evs. destruct Hin as [Hin|[]]. discriminate. }
  destruct (readHashes_loop _ _ _ _ _ _ _ _ w) as [r1 w1] eqn:Hscan.
  destruct (readHashes_loop_events _ _ _ _ _ _ _ _ _ _ _ Hscan)
    as (Ht & evs1 & Htr1 & _ & Herr).
  destruct r1 as [sc|e| |].
  - assert (Hno : ~ In (EvFetchBlockHashByNum b (Err err)) evs1).
    { intros Hin. specialize (Herr _ _ Hin). discriminate. }
    destruct (new_window _ sc) as [q'|e| |].
    + destruct (_ <? _); intros H Htr Hin; inversion H; subst w'; simpl in Htr;
        rewrite Htr1 in Htr; rewrite <- ?app_assoc in Htr;
        apply app_inv_head in Htr; subst evs; exfalso.
      * apply in_app_or in Hin. destruct Hin as [Hin|[Hin|[]]]; [auto|discriminate].
      * auto.
    + intros H Htr Hin; inversion H; subst w'; simpl in Htr.
      rewrite Htr1 in Htr. apply app_inv_head in Htr. subst evs. contradiction.
    + intros H Htr Hin; inversion H; subst w'; simpl in Htr.
      rewrite Htr1 in Htr. apply app_inv_head in Htr. subst evs. contradiction.
    + intros H Htr Hin; inversion H; subst w'; simpl in Htr.
      rewrite Htr1 in Htr. apply app_inv_head in Htr. subst evs. contradiction.
  - intros H Htr Hin. inversion H. subst.
    rewrite Htr1 in Htr. apply app_inv_head in Htr. subst evs.
    split; [|exact Ht]. specialize (Herr _ _ Hin). inversion Herr. reflexivity.
  - intros H Htr Hin. inversion H. subst.
    rewrite Htr1 in Htr. apply app_inv_head in Htr. subst evs.
    specialize (Herr _ _ Hin). discriminate.
  - intros H Htr Hin. inversion H. subst.
    rewrite Htr1 in Htr. apply app_inv_head in Htr. subst evs.
    specialize (Herr _ _ Hin). discriminate.
Qed.

Lemma fetchAllPreviousBlocks_older (n : Z) (w : World) :
  n < latestBlockNum (tracker w) ->
  tracker (snd (fetchAllPreviousBlocks n w)) = tracker w /\
  (forall h, fst (fetchAllPreviousBlocks n w) <> Ok h) /\
  (0 <= Int64.of_uint64 (blocksToSave (tracker w)) ->
   fetchAllPreviousBlocks n w =
     (Err (ErrOlderThanCurrent n (latestBlockNum (tracker w))),
      extend w [EvLogError (ErrOlderThanCurrent n (latestBlockNum (tracker w)))])).
Proof.
  intros Hold. rewrite fetchAllPreviousBlocks_eq. cbv zeta. unfold GetLatestBlockNum.
  destruct (Z.ltb_spec n (latestBlockNum (tracker w))) as [_|Hbad]; [|lia].
  destruct (Z.ltb_spec (Int64.of_uint64 (blocksToSave (tracker w))) 0) as [HB|HB]; simpl.
  - split; [reflexivity|]. split; [discriminate|]. intros HB'. lia.
  - split; [reflexivity|]. split; [discriminate|]. intros _. reflexivity.
Qed.

Lemma fetchAllPreviousBlocks_monotone (n : Z) (w : World) h w' :
  fetchAllPreviousBlocks n w = (Ok h, w') ->
  latestBlockNum (tracker w) <= latestBlockNum (tracker w') /\
  latestBlockNum (tracker w') = n.
Proof.
  intros Hok.
  destruct (fetchAllPreviousBlocks_Ok _ _ _ _ Hok)
    as (_ & Hcn & sc & w1 & q' & _ & _ & _ & -> & _).
  simpl tracker.
  destruct (repaired_tracker_fields n (Int64.sub n (latestBlockNum (tracker w))) q'
              (tracker w)) as (_ & F2 & _).
  rewrite F2. split; [exact Hcn|reflexivity].
Qed.

(** C6. A remote hash fetch that fails during the scan ends the repair
    with that error (wrapped with the block number) and the tracker is
    as before; a repair to a block older than the latest is refused with
    an error and without any write; so across any run of successful
    repairs [latestBlockNum] never decreases. *)
Theorem repair_failure_and_monotonicity :
  (forall (n : Z) (w : World) res w' evs b err,
     fetchAllPreviousBlocks n w = (res, w') ->
     trace w' = trace w ++ evs ->
     In (EvFetchBlockHashByNum b (Err err)) evs ->
     res = Err (ErrCouldNotGetBlockData b err) /\ tracker w' = tracker w) /\
  (forall (n : Z) (w : World),
     n < latestBlockNum (tracker w) ->
     tracker (snd (fetchAllPreviousBlocks n w)) = tracker w /\
     (forall h, fst (fetchAllPreviousBlocks n w) <> Ok h) /\
     (0 <= Int64.of_uint64 (blocksToSave (tracker w)) ->
      fst (fetchAllPreviousBlocks n w) =
        Err (ErrOlderThanCurrent n (latestBlockNum (tracker w))))) /\
  (forall (w w' : World),
     successful_repairs w w' ->
     latestBlockNum (tracker w) <= latestBlockNum (tracker w')).
Proof.
  split; [|split].
  - intros n w res w' evs b err. apply fetchAllPreviousBlocks_fetch_error.
  - intros n w Hold.
    destruct (fetchAllPreviousBlocks_older n w Hold) as (H1 & H2 & H3).
    repeat split; auto. intros HB. rewrite (H3 HB). reflexivity.
  - intros w w' Hrun. induction Hrun as [w|w w' r _ IH|w w1 w2 n h Hok _ IH].
    + lia.
    + exact IH.
    + destruct (fetchAllPreviousBlocks_monotone _ _ _ _ Hok) as (Hle & _). lia.
Qed.

(** ** The length check after the write *)

Lemma scan_new_window_length (n : Z) (w : World) sc w1 q' :
  let cs := tracker w in
  let B := Int64.of_uint64 (blocksToSave cs) in
  Uint64.in_range (blocksToSave cs) -> 0 <= B ->
  readHashes_loop (Z.to_nat B) 0 n (Int64.sub n (latestBlockNum cs)) 0 0 0
    (replicate (Z.to_nat B) {| Block := 0; Hash := "" |}) w = (Ok sc, w1) ->
  new_window (blocksQueue cs) sc = Ok q' ->
  Z.of_nat (length q') = blocksToSave cs.
Proof.
  intros cs B Hbts HB Hscan Hnw.
  assert (Hrep : Z.of_nat (length (replicate (Z.to_nat B)
                    {| Block := 0; Hash := "" |})) = B).
  { rewrite length_replicate. lia. }
  destruct (scan_indexes_consistent _ _ _ _ _ _ HB Hrep Hscan) as (C1 & C2 & C3).
  pose proof (new_window_length _ _ _ C1 C2 Hnw) as Hlen.
  rewrite C3, length_replicate in Hlen.
  destruct (Int64_of_uint64_nonneg _ Hbts HB) as (HBeq & _). fold B in HBeq. lia.
Qed.

(** C10, as the code has it. The check of the queue length does come
    after the write: were the queue shorter than [blocksToSave], the
    repair would return an error with the window already replaced. But
    the window that is written always has [blocksToSave] records, so the
    check never fails: every error of the repair is the refusal of an
    older block or a failed fetch, and leaves the tracker as it was. *)
Theorem repair_error_before_write (n : Z) (w : World) :
  let cs := tracker w in
  let B := Int64.of_uint64 (blocksToSave cs) in
  let rd := Int64.sub n (latestBlockNum cs) in
  Uint64.in_range (blocksToSave cs) ->
  (forall err w',
     fetchAllPreviousBlocks n w = (Err err, w') ->
     tracker w' = cs /\
     ((n < latestBlockNum cs /\ err = ErrOlderThanCurrent n (latestBlockNum cs)) \/
      (latestBlockNum cs <= n /\ exists b e0, err = ErrCouldNotGetBlockData b e0))) /\
  (forall sc w1 q',
     0 <= B ->
     readHashes_loop (Z.to_nat B) 0 n rd 0 0 0
       (replicate (Z.to_nat B) {| Block := 0; Hash := "" |}) w = (Ok sc, w1) ->
     new_window (blocksQueue cs) sc = Ok q' ->
     Z.of_nat (length q') = blocksToSave cs) /\
  (forall h w',
     fetchAllPreviousBlocks n w = (Ok h, w') ->
     Z.of_nat (length (blocksQueue (tracker w'))) = blocksToSave cs /\
     latestBlockNum (tracker w') = n).
Proof.
  intros cs B rd Hbts. split; [|split].
  - intros err w' Herr. apply fetchAllPreviousBlocks_Err; assumption.
  - intros sc w1 q' HB Hscan Hnw.
    apply (scan_new_window_length n w sc w1 q'); assumption.
  - intros h w' Hok.
    destruct (fetchAllPreviousBlocks_monotone _ _ _ _ Hok) as (_ & Hn).
    split; [|exact Hn].
    destruct (fetchAllPreviousBlocks_Ok _ _ _ _ Hok)
      as (HB & _ & sc & w1 & q' & Hscan & _ & Hnw & -> & _).
    simpl tracker.
    destruct (repaired_tracker_fields n rd q' cs) as (F1 & _).
    fold cs rd. rewrite F1.
    apply (scan_new_window_length n w sc w1 q'); assumption.
Qed.

(** ** The overlap anchor *)

Lemma existing_idx_exact (len rd i : Z) :
  0 <= len <= 2 ^ 62 -> Int64.in_range rd -> 0 <= i <= Int64.max_int ->
  rd < len -> 0 < existing_idx len rd i <= Int64.sub len 1 ->
  existing_idx len rd i = len - 1 + rd - i.
Proof.
  unfold existing_idx. change (2 ^ 62) with 4611686018427387904. int64_lia.
Qed.

(** C2. Iteration [i] of the scan, which fetched hash [h] for block [b],
    accepts the record at [existing_idx = (len - 1 + read_diff) - i] only
    if that index is above 0 and at most [len - 1], the record's number
    is [b] and its hash is [h]. If the index is in that range and the
    record's number is not [b], the answer is no overlap, with a report
    to the error sink and no error: the scan stores the fetched block and
    goes on with the next iteration. *)
Theorem overlap_anchor (rd i b : Z) (h : string) (w : World) :
  let cs := tracker w in
  let len := Z.of_nat (length (blocksQueue cs)) in
  let ei := existing_idx len rd i in
  exists found s e nqs evs,
    hashesOverlapIndexes rd i b h w = (Ok (found, s, e, nqs), extend w evs) /\
    (found = true ->
     0 < ei <= len - 1 /\
     exists x, blocksQueue cs !! Z.to_nat ei = Some x /\ Block x = b /\ Hash x = h) /\
    (found = true ->
     len <= 2 ^ 62 -> Int64.in_range rd -> 0 <= i <= Int64.max_int ->
     ei = len - 1 + rd - i) /\
    (forall x,
       len <= Int64.max_int -> 0 < ei <= len - 1 ->
       blocksQueue cs !! Z.to_nat ei = Some x -> Block x <> b ->
       found = false /\ s = 0 /\ e = 0 /\ nqs = 0 /\
       (rd < len -> evs = [EvLogError (ErrMismatchingBlock b x)]) /\
       forall todo n s0 e0 nqs0 nq (w0 : World),
         b = Int64.sub n i ->
         fetchBlockHashByNum b w0 = (Ok h, w) ->
         readHashes_loop (S todo) i n rd s0 e0 nqs0 nq w0 =
           match store nq
                   (Int64.sub (Int64.sub (Int64.of_uint64 (blocksToSave cs)) 1) i)
                   {| Block := b; Hash := h |} with
           | Ok nq' =>
             readHashes_loop todo (Int64.add i 1) n rd 0 0 0 nq' (extend w evs)
           | Err err => (Err err, extend w evs)
           | Panic => (Panic, extend w evs)
           | OutOfFuel => (OutOfFuel, extend w evs)
           end).
Proof.
  intros cs len ei.
  destruct (hashesOverlapIndexes_spec rd i b h w)
    as (found & s & e & nqs & evs & Ho & Hacc & Hyes & Hno & Hmis & _).
  fold cs len ei in Hacc, Hyes, Hno, Hmis.
  exists found, s, e, nqs, evs. split; [exact Ho|].
  split.
  { intros Hf. apply Hacc in Hf.
    destruct Hf as (_ & Hei & Hx & _). fold cs len ei in Hei, Hx.
    split; [|exact Hx]. subst len. int64_lia. }
  split.
  { intros Hf Hlen Hrd Hi. apply Hacc in Hf.
    destruct Hf as (Hlt & Hei & _). fold cs len ei in Hlt, Hei.
    apply existing_idx_exact; auto. subst len. lia. }
  intros x Hlen Hei Hx Hb.
  assert (Hei' : 0 < ei <= Int64.sub len 1).
  { rewrite Int64_sub_id; [exact Hei|]. subst len. int64_lia. }
  assert (Hf : found = false).
  { destruct found; [|reflexivity]. exfalso.
    destruct (proj1 Hacc eq_refl) as (_ & _ & (y & Hy & Hyb & _) & _).
    fold cs len ei in Hy. congruence. }
  destruct (Hno Hf) as (-> & -> & ->). subst found.
  repeat split; auto.
  - intros Hlt. destruct (Hmis x Hlt Hei' Hx Hb) as (_ & Hevs). exact Hevs.
  - intros todo n s0 e0 nqs0 nq w0 Hbn Hfetch. subst b.
    rewrite (readHashes_loop_continue todo i n rd s0 e0 nqs0 nq w0 w
               (extend w evs) h 0 0 0 Hfetch Ho).
    reflexivity.
Qed.

(** ** The fork detector *)

Lemma gotNewBlock_eq (n : Z) (w : World) :
  gotNewBlock n w = (Ok (n >? latestBlockNum (tracker w)), w).
Proof. reflexivity. Qed.

Lemma forkChanged_eq (n : Z) (w : World) :
  let saved := getLatestBlockUnsafe (tracker w) in
  latestBlockNum (tracker w) = Block saved ->
  forkChanged n w =
    (result_map (fun hash => negb (String.eqb (Hash saved) hash))
       (fst (fetchBlockHashByNum (Block saved) w)),
     snd (fetchBlockHashByNum (Block saved) w)).
Proof.
  intros saved Hinv. unfold forkChanged, bind at 1, get at 1.
  unfold GetLatestBlockNum.
  destruct (Z.eqb_spec n (latestBlockNum (tracker w))) as [Heq|Hne].
  - subst n. rewrite Hinv. fold saved. unfold bind.
    destruct (fetchBlockHashByNum (Block saved) w) as [res w'] eqn:Hf.
    assert (Ht : tracker w' = tracker w).
    { destruct (fetchBlockHashByNum_cases _ _ _ _ Hf) as [[-> _]|[Ht _]]; auto. }
    destruct res; simpl; try reflexivity.
    unfold get, ret. rewrite Ht. reflexivity.
  - fold saved. unfold bind.
    destruct (fetchBlockHashByNum (Block saved) w) as [res w'] eqn:Hf.
    destruct res; reflexivity.
Qed.

Lemma fork_detector_flags (n : Z) (w : World) :
  let cs := tracker w in
  let saved := getLatestBlockUnsafe cs in
  latestBlockNum cs = Block saved ->
  gotNewBlock n w = (Ok (n >? latestBlockNum cs), w) /\
  ((n >? latestBlockNum cs) = true <-> latestBlockNum cs < n) /\
  forall res w',
    fetchBlockHashByNum (Block saved) w = (res, w') ->
    forkChanged n w =
      (result_map (fun hash => negb (String.eqb (Hash saved) hash)) res, w') /\
    tracker w' = cs /\
    (fst (forkChanged n w) = Ok true <-> exists hash, res = Ok hash /\ hash <> Hash saved).
Proof.
  intros cs saved Hinv. split; [apply gotNewBlock_eq|]. split.
  { destruct (Z.gtb_spec n (latestBlockNum cs)); split; intros; try lia;
      try reflexivity; discriminate. }
  intros res w' Hf.
  pose proof (forkChanged_eq n w Hinv) as Heq. fold cs saved in Heq.
  rewrite Hf in Heq. simpl in Heq. split; [exact Heq|]. split.
  { destruct (fetchBlockHashByNum_cases _ _ _ _ Hf) as [[-> _]|[Ht _]]; auto. }
  rewrite Heq. simpl. split.
  - destruct res as [hash|e| |]; simpl; try discriminate.
    intros H. inversion H as [Hneg]. exists hash. split; [reflexivity|].
    destruct (String.eqb_spec (Hash saved) hash); [discriminate|auto].
  - intros (hash & -> & Hne). simpl.
    destruct (String.eqb_spec (Hash saved) hash); [congruence|reflexivity].
Qed.

(** ** A poll cycle on an unchanged remote *)

(** C7. When the remote reports the latest block the tracker already has
    and, for that block, the hash the tracker has saved, the poll cycle
    makes those two calls and nothing else: no repair, the tracker is
    untouched, no callback is called. *)
Theorem unchanged_remote_cycle (fuel : nat) (w w1 w2 : World) (n : Z) (h : string) :
  fetchLatestBlockNum w = (Ok n, w1) ->
  n = latestBlockNum (tracker w) ->
  fetchBlockHashByNum n w1 = (Ok h, w2) ->
  h = Hash (getLatestBlockUnsafe (tracker w)) ->
  fetchAllPreviousBlocksIfNecessary fuel w = (Ok tt, w2) /\
  tracker w2 = tracker w /\
  trace w2 = trace w ++ [EvFetchLatestBlockNum (Ok n); EvFetchBlockHashByNum n (Ok h)].
Proof.
  intros Hl Hn Hf Hh.
  destruct (fetchLatestBlockNum_cases _ _ _ Hl) as (Ht1 & Htr1 & _).
  assert (Ht2 : tracker w2 = tracker w1 /\
                trace w2 = trace w1 ++ [EvFetchBlockHashByNum n (Ok h)]).
  { destruct (fetchBlockHashByNum_cases _ _ _ _ Hf) as [[_ [e He]]|[Ht Htr]];
      [discriminate|auto]. }
  destruct Ht2 as (Ht2 & Htr2).
  split; [|split].
  - unfold fetchAllPreviousBlocksIfNecessary.
    rewrite (bind_wrap_eq _ _ _ _ _ _ Hl).
    unfold bind at 1. rewrite gotNewBlock_eq. rewrite Ht1.
    destruct (Z.gtb_spec n (latestBlockNum (tracker w))) as [Hgt|_]; [lia|].
    assert (Hfork : forkChanged n w1 = (Ok false, w2)).
    { unfold forkChanged, bind at 1, get at 1. unfold GetLatestBlockNum.
      rewrite Ht1. destruct (Z.eqb_spec n (latestBlockNum (tracker w))) as [_|Hne];
        [|contradiction].
      unfold bind. rewrite Hf. unfold get, ret. rewrite Ht2, Ht1. rewrite <- Hh.
      rewrite String.eqb_refl. reflexivity. }
    rewrite (bind_wrap_eq _ _ _ _ _ _ Hfork). reflexivity.
  - congruence.
  - rewrite Htr2, Htr1. rewrite <- app_assoc. reflexivity.
Qed.

(** ** Callbacks of a poll cycle *)

Lemma new_block_events_cons (i n : Z) (tip : string) :
  i <= n ->
  (fun b => EvNewLatestCallback b tip) <$> seqZ i (n - i + 1) =
  EvNewLatestCallback i tip ::
    ((fun b => EvNewLatestCallback b tip) <$> seqZ (i + 1) (n - (i + 1) + 1)).
Proof.
  intros Hle. rewrite (seqZ_cons i) by lia. simpl.
  replace (Z.succ i) with (i + 1) by lia.
  replace (Z.pred (n - i + 1)) with (n - (i + 1) + 1) by lia. reflexivity.
Qed.

(** With the largest [int64] as the new latest block the loop of the
    callbacks never ends: its counter wraps around. *)
Lemma newLatestCallback_loop_max_int (fuel : nat) : forall (i : Z) (tip : string) (w : World),
  Int64.in_range i ->
  fst (newLatestCallback_loop fuel i Int64.max_int tip w) = OutOfFuel.
Proof.
  induction fuel as [|fuel IH]; intros i tip w Hi; simpl.
  - destruct (Z.leb_spec i Int64.max_int) as [_|Hbad]; [reflexivity|].
    unfold Int64.in_range in Hi. lia.
  - destruct (Z.leb_spec i Int64.max_int) as [_|Hbad];
      [|unfold Int64.in_range in Hi; lia].
    unfold bind, emit.
    specialize (IH (Int64.add i 1) tip
                  {| remote := remote w; tracker := tracker w;
                     trace := trace w ++ [EvNewLatestCallback i tip] |}
                  (Int64_wrap_in_range _)).
    destruct (newLatestCallback_loop fuel _ _ _ _) as [[[]|e| |] w'];
      simpl in IH; try discriminate; reflexivity.
Qed.

(** A loop of the callbacks that ends has called the callback once for
    each block from [i] to [n], in ascending order. *)
Lemma newLatestCallback_loop_Ok (fuel : nat) : forall (i n : Z) (tip : string) (w w' : World),
  Int64.in_range i -> Int64.in_range n ->
  newLatestCallback_loop fuel i n tip w = (Ok tt, w') ->
  w' = extend w ((fun b => EvNewLatestCallback b tip) <$> seqZ i (n - i + 1)).
Proof.
  induction fuel as [|fuel IH]; intros i n tip w w' Hi Hn H; simpl in H.
  - destruct (Z.leb_spec i n) as [Hle|Hgt]; [discriminate|].
    inversion H. rewrite seqZ_nil by lia. simpl. symmetry. apply extend_nil.
  - destruct (Z.leb_spec i n) as [Hle|Hgt].
    2:{ inversion H. rewrite seqZ_nil by lia. simpl. symmetry. apply extend_nil. }
    unfold bind, emit in H. simpl in H.
    destruct (Z.eq_dec n Int64.max_int) as [Hmax|Hmax].
    { exfalso. subst n.
      pose proof (newLatestCallback_loop_max_int fuel (Int64.add i 1) tip
                    {| remote := remote w; tracker := tracker w;
                       trace := trace w ++ [EvNewLatestCallback i tip] |}
                    (Int64_wrap_in_range _)) as Hdiv.
      destruct (newLatestCallback_loop fuel _ _ _ _) as [[[]|e| |] w'']; simpl in Hdiv;
        discriminate. }
    assert (Hadd : Int64.add i 1 = i + 1).
    { apply Int64_add_id. unfold Int64.in_range in *. lia. }
    rewrite Hadd in H.
    destruct (newLatestCallback_loop fuel (i + 1) n tip _) as [[[]|e| |] w''] eqn:Hloop;
      try discriminate.
    inversion H. subst w''.
    apply IH in Hloop; [|unfold Int64.in_range in *; lia|exact Hn].
    rewrite Hloop. rewrite (new_block_events_cons i n tip Hle).
    unfold extend. simpl. rewrite <- app_assoc. reflexivity.
Qed.

(** Below the largest [int64] the loop ends, given fuel for its
    iterations. *)
Lemma newLatestCallback_loop_terminates (fuel : nat) :
  forall (i n : Z) (tip : string) (w : World),
    Int64.in_range i -> n < Int64.max_int ->
    (Z.to_nat (n - i + 1) <= fuel)%nat ->
    newLatestCallback_loop fuel i n tip w =
      (Ok tt, extend w ((fun b => EvNewLatestCallback b tip) <$> seqZ i (n - i + 1))).
Proof.
  induction fuel as [|fuel IH]; intros i n tip w Hi Hn Hfuel; simpl.
  - destruct (Z.leb_spec i n) as [Hle|Hgt]; [lia|].
    rewrite seqZ_nil by lia. simpl. rewrite extend_nil. reflexivity.
  - destruct (Z.leb_spec i n) as [Hle|Hgt].
    2:{ rewrite seqZ_nil by lia. simpl. rewrite extend_nil. reflexivity. }
    unfold bind, emit.
    assert (Hadd : Int64.add i 1 = i + 1).
    { apply Int64_add_id. unfold Int64.in_range in *. lia. }
    rewrite Hadd. rewrite IH; [|unfold Int64.in_range in *; lia|exact Hn|lia].
    rewrite (new_block_events_cons i n tip Hle).
    unfold extend. simpl. rewrite <- app_assoc. reflexivity.
Qed.

Lemma count_new_block_events (prev n : Z) (tip : string) :
  count_events is_newLatestCallback (new_block_events prev n tip) = Z.to_nat (n - prev) /\
  count_events is_forkCallback (new_block_events prev n tip) = 0%nat.
Proof.
  unfold count_events, new_block_events.
  assert (H : forall l : list Z,
            length (List.filter is_newLatestCallback
                      ((fun b => EvNewLatestCallback b tip) <$> l)) = length l /\
            length (List.filter is_forkCallback
                      ((fun b => EvNewLatestCallback b tip) <$> l)) = 0%nat).
  { induction l as [|b l [IH1 IH2]]; simpl; [auto|]. split; [f_equal; exact IH1|exact IH2]. }
  destruct (H (seqZ (prev + 1) (n - prev))) as (H1 & H2).
  rewrite H1, H2, length_seqZ. auto.
Qed.

Lemma count_events_app (f : event -> bool) (l1 l2 : list event) :
  count_events f (l1 ++ l2) = (count_events f l1 + count_events f l2)%nat.
Proof. unfold count_events. rewrite List.filter_app, length_app. lia. Qed.

(** The events of a poll cycle up to the end of its repair hold no
    callback. *)
Lemma forkChanged_events (n : Z) (w : World) res w' :
  forkChanged n w = (res, w') ->
  tracker w' = tracker w /\
  exists evs, trace w' = trace w ++ evs /\ Forall (fun ev => is_callback ev = false) evs.
Proof.
  assert (Hfetch : forall b (v : World) r v',
            fetchBlockHashByNum b v = (r, v') ->
            tracker v' = tracker v /\
            exists evs, trace v' = trace v ++ evs /\
                        Forall (fun ev => is_callback ev = false) evs).
  { intros b v r v' Hf.
    destruct (fetchBlockHashByNum_cases _ _ _ _ Hf) as [[-> _]|[Ht Htr]].
    - split; [reflexivity|]. exists []. rewrite app_nil_r. split; [reflexivity|constructor].
    - split; [exact Ht|]. eexists. split; [exact Htr|]. repeat constructor. }
  unfold forkChanged, bind at 1, get at 1.
  destruct (_ =? _).
  - unfold bind. destruct (fetchBlockHashByNum n w) as [r v'] eqn:Hf.
    apply Hfetch in Hf. destruct r; intros H; inversion H; subst; exact Hf.
  - unfold bind. destruct (fetchBlockHashByNum _ w) as [r v'] eqn:Hf.
    apply Hfetch in Hf. destruct r; intros H; inversion H; subst; exact Hf.
Qed.

(** C4. In a poll cycle whose repair succeeds, with [prev] the latest
    block before it and [n] the new one: the cycle, when it returns,
    has added to the events of the repair exactly the new-block callbacks
    (if a new block was got and the callback is configured: one for each
    block of [prev + 1 .. n], ascending, each with the hash of the tip
    after the repair) followed by the fork callback (if a fork was seen
    and the callback is configured: once, with [n]). So a configured
    new-block callback is called [max 0 (n - prev)] times and the fork
    callback at most once. The cycle does return when [n] is below the
    largest [int64] and the fuel covers the [n - prev] iterations. *)
Theorem poll_cycle_callbacks (fuel : nat) (w w1 w2 w3 : World) (n : Z)
    (forked : bool) (tip : string) :
  let cs := tracker w in
  let prev := latestBlockNum cs in
  let got := n >? prev in
  let news := if got && newLatestCallback cs then new_block_events prev n tip else [] in
  let forks := if forked && forkCallback cs then [EvForkCallback n] else [] in
  Int64.in_range prev ->
  fetchLatestBlockNum w = (Ok n, w1) ->
  forkChanged n w1 = (Ok forked, w2) ->
  got || forked = true ->
  fetchAllPreviousBlocks n w2 = (Ok tip, w3) ->
  tip = Hash (getLatestBlockUnsafe (tracker w3)) /\
  (exists evs, trace w3 = trace w ++ evs /\
               Forall (fun ev => is_callback ev = false) evs) /\
  (forall w', fetchAllPreviousBlocksIfNecessary fuel w = (Ok tt, w') ->
              w' = extend w3 (news ++ forks)) /\
  (n < Int64.max_int -> (Z.to_nat (n - prev) <= fuel)%nat ->
   fetchAllPreviousBlocksIfNecessary fuel w = (Ok tt, extend w3 (news ++ forks))) /\
  (newLatestCallback cs = true ->
   count_events is_newLatestCallback (news ++ forks) = Z.to_nat (Z.max 0 (n - prev))) /\
  count_events is_forkCallback (news ++ forks) =
    (if forked && forkCallback cs then 1 else 0)%nat.
Proof.
  intros cs prev got news forks Hprev Hl Hfork Hflag Hrep.
  destruct (fetchLatestBlockNum_cases _ _ _ Hl) as (Ht1 & Htr1 & Hrem).
  pose proof (FetchLatestBlockNum_int64 _ _ _ Hrem) as Hn.
  destruct (forkChanged_events _ _ _ _ Hfork) as (Ht2 & evs2 & Htr2 & Hcb2).
  destruct (fetchAllPreviousBlocks_Ok _ _ _ _ Hrep)
    as (_ & Hcn & sc & v & q' & Hscan & Htv & _ & Hw3 & Htip).
  destruct (readHashes_loop_events _ _ _ _ _ _ _ _ _ _ _ Hscan)
    as (_ & evs3 & Htr3 & Hcb3 & _).
  assert (Hcs2 : tracker w2 = cs) by (unfold cs; congruence).
  rewrite Hcs2 in Hcn. fold prev in Hcn.
  (* the cycle, up to the callbacks *)
  assert (Hcycle : fetchAllPreviousBlocksIfNecessary fuel w =
            bind (if got then
                    if newLatestCallback cs
                    then newLatestCallback_loop fuel (prev + 1) n tip
                    else ret tt
                  else ret tt)
                 (fun _ => if forked then
                             if forkCallback cs then emit (EvForkCallback n) else ret tt
                           else ret tt) w3).
  { unfold fetchAllPreviousBlocksIfNecessary.
    rewrite (bind_wrap_eq _ _ _ _ _ _ Hl).
    unfold bind at 1. rewrite gotNewBlock_eq. rewrite Ht1. fold cs prev got.
    rewrite (bind_wrap_eq _ _ _ _ _ _ Hfork). rewrite Hflag.
    unfold bind at 1, get at 1. rewrite Hcs2. unfold GetLatestBlockNum. fold prev.
    rewrite (bind_eq _ _ _ _ _ Hrep).
    destruct got eqn:Hgot; [|reflexivity].
    assert (Hadd : Int64.add prev 1 = prev + 1).
    { apply Int64_add_id. subst got. apply Z.gtb_lt in Hgot.
      unfold Int64.in_range in *. lia. }
    rewrite Hadd. reflexivity. }
  assert (Hforks : forall v0 : World,
            (if forked then
               if forkCallback cs then emit (EvForkCallback n) else ret tt
             else ret tt) v0 = (Ok tt, extend v0 forks)).
  { intros v0. subst forks. destruct forked; simpl; [destruct (forkCallback cs)|];
      unfold ret, emit; simpl; rewrite ?extend_nil; reflexivity. }
  assert (Hseq : n - (prev + 1) + 1 = n - prev) by lia.
  split; [exact Htip|]. split.
  { exists ((EvFetchLatestBlockNum (Ok n) :: evs2) ++ evs3).
    rewrite Hw3. simpl. rewrite Htr3, Htr2, Htr1. rewrite <- !app_assoc.
    split; [reflexivity|]. simpl. constructor; [reflexivity|].
    apply Forall_app. split; assumption. }
  split.
  { intros w' Hok. rewrite Hcycle in Hok. apply bind_Ok in Hok.
    destruct Hok as ([] & v1 & Hnews & Hfk). rewrite Hforks in Hfk. inversion Hfk.
    subst news. destruct got eqn:Hgot; simpl.
    - destruct (newLatestCallback cs).
      + apply newLatestCallback_loop_Ok in Hnews;
          [|subst got; apply Z.gtb_lt in Hgot; unfold Int64.in_range in *; lia|exact Hn].
        rewrite Hnews. rewrite Hseq. rewrite extend_extend. reflexivity.
      + unfold ret in Hnews. inversion Hnews. reflexivity.
    - unfold ret in Hnews. inversion Hnews. reflexivity. }
  split.
  { intros Hmax Hfuel. rewrite Hcycle. subst news.
    destruct got eqn:Hgot; simpl.
    - destruct (newLatestCallback cs).
      + unfold bind. rewrite newLatestCallback_loop_terminates;
          [|subst got; apply Z.gtb_lt in Hgot; unfold Int64.in_range in *; lia
           |exact Hmax|lia].
        rewrite Hforks. rewrite Hseq. rewrite extend_extend. reflexivity.
      + unfold bind, ret. rewrite Hforks. reflexivity.
    - unfold bind, ret. rewrite Hforks. reflexivity. }
  assert (Hcf : count_events is_newLatestCallback forks = 0%nat /\
                count_events is_forkCallback forks =
                  (if forked && forkCallback cs then 1 else 0)%nat).
  { subst forks. destruct (forked && forkCallback cs); split; reflexivity. }
  destruct Hcf as (Hcf1 & Hcf2).
  destruct (count_new_block_events prev n tip) as (Hcn1 & Hcn2).
  split.
  - intros Hconf. rewrite count_events_app, Hcf1. subst news. rewrite Hconf.
    destruct got eqn:Hgot; simpl.
    + rewrite Hcn1. lia.
    + subst got. destruct (Z.gtb_spec n prev); [discriminate|].
      unfold count_events. simpl. lia.
  - rewrite count_events_app, Hcf2. subst news.
    destruct (got && newLatestCallback cs); [rewrite Hcn2|]; reflexivity.
Qed.

(** * Further properties of the tracker *)

(** ** Events of the scan and of the repair *)

(** The events a scan can add: calls of the remote for a hash, and
    reports to the error sink. *)
Definition is_scan_event (ev : event) : bool :=
  match ev with
  | EvFetchBlockHashByNum _ _ | EvLogError _ => true
  | _ => false
  end.

(** The blocks whose hash was asked of the remote, in the order of the
    calls. *)
Fixpoint fetched_blocks (evs : list event) : list Z :=
  match evs with
  | [] => []
  | EvFetchBlockHashByNum b _ :: evs' => b :: fetched_blocks evs'
  | _ :: evs' => fetched_blocks evs'
  end.

Lemma fetched_blocks_app (l1 l2 : list event) :
  fetched_blocks (l1 ++ l2) = fetched_blocks l1 ++ fetched_blocks l2.
Proof.
  induction l1 as [|ev l1 IH]; simpl; [reflexivity|].
  destruct ev; simpl; rewrite IH; reflexivity.
Qed.

Lemma fetched_blocks_logs (evs : list event) :
  Forall is_log evs -> fetched_blocks evs = [].
Proof.
  induction 1 as [|ev evs [err ->] _ IH]; simpl; auto.
Qed.

Lemma is_log_scan_event (evs : list event) :
  Forall is_log evs -> Forall (fun ev => is_scan_event ev = true) evs.
Proof. intros H. eapply Forall_impl; [exact H|]. intros ev [err ->]. reflexivity. Qed.

(** What one call of the wrapper adds to the trace. *)
Lemma fetchBlockHashByNum_trace (b : Z) (w : World) res w' :
  fetchBlockHashByNum b w = (res, w') ->
  tracker w' = tracker w /\
  exists evs, trace w' = trace w ++ evs /\
    (evs = [] /\ (exists e, res = Err e) \/ evs = [EvFetchBlockHashByNum b res]).
Proof.
  intros Hf. destruct (fetchBlockHashByNum_cases _ _ _ _ Hf) as [[-> He]|[Ht Htr]].
  - split; [reflexivity|]. exists []. rewrite app_nil_r. auto.
  - split; [exact Ht|]. eexists. split; [exact Htr|]. auto.
Qed.

(** The scan asks for the blocks [n - idx], [n - idx - 1], ... in this
    order, one call each, and for at most as many as it has iterations;
    a panic of the scan is a panic of the remote. *)
Lemma readHashes_loop_fetches todo : forall idx n rd s e nqs nq (w : World) res w',
  let B := Int64.of_uint64 (blocksToSave (tracker w)) in
  Z.of_nat todo = B - idx -> 0 <= idx -> Z.of_nat (length nq) = B ->
  readHashes_loop todo idx n rd s e nqs nq w = (res, w') ->
  exists evs k,
    trace w' = trace w ++ evs /\
    Forall (fun ev => is_scan_event ev = true) evs /\
    0 <= k <= Z.of_nat todo /\
    fetched_blocks evs = (fun j => Int64.sub n j) <$> seqZ idx k /\
    (res = Panic -> exists b, In (EvFetchBlockHashByNum b Panic) evs) /\
    (res = OutOfFuel -> exists b, In (EvFetchBlockHashByNum b OutOfFuel) evs).
Proof.
  induction todo as [|todo IH]; intros idx n rd s e nqs nq w res w' B Htodo Hidx Hlen H.
  - simpl in H. inversion H. exists [], 0. rewrite app_nil_r.
    repeat split; try discriminate; try lia; constructor.
  - simpl in H. unfold bind_wrap in H.
    destruct (fetchBlockHashByNum (Int64.sub n idx) w) as [r0 w1] eqn:Hf.
    destruct (fetchBlockHashByNum_trace _ _ _ _ Hf) as (Ht1 & evs0 & Htr0 & Hev0).
    assert (HB : Int64.in_range B) by apply Int64_wrap_in_range.
    assert (Hone : seqZ idx 1 = [idx]) by (rewrite (seqZ_cons idx 1) by lia; reflexivity).
    destruct r0 as [h|e0| |].
    + destruct Hev0 as [[_ [e1 He1]]|Hev0]; [discriminate|]. subst evs0.
      destruct (hashesOverlapIndexes_spec rd idx (Int64.sub n idx) h w1)
        as (found & s1 & e1 & nqs1 & evs1 & Ho & _ & _ & _ & _ & Hlog).
      unfold bind at 1 in H. rewrite Ho in H.
      destruct found.
      { unfold ret in H. inversion H. subst.
        exists (EvFetchBlockHashByNum (Int64.sub n idx) (Ok h) :: evs1), 1.
        unfold extend. cbn [trace]. rewrite Htr0, <- app_assoc. split; [reflexivity|].
        split; [constructor; [reflexivity|apply is_log_scan_event; exact Hlog]|].
        split; [lia|]. cbn [fetched_blocks]. rewrite (fetched_blocks_logs _ Hlog), Hone.
        repeat split; discriminate. }
      unfold bind, get, lift in H. simpl in H. rewrite Ht1 in H. fold B in H.
      assert (Hslot : Int64.sub (Int64.sub B 1) idx = B - 1 - idx) by int64_lia.
      rewrite Hslot in H. rewrite (store_in_range nq (B - 1 - idx)) in H by lia.
      assert (Hnext : Int64.add idx 1 = idx + 1) by int64_lia.
      rewrite Hnext in H.
      pose proof (IH (idx + 1) n rd s1 e1 nqs1
                    (<[Z.to_nat (B - 1 - idx) :=
                         {| Block := Int64.sub n idx; Hash := h |}]> nq)
                    (extend w1 evs1) res w') as IH'.
      cbv zeta in IH'. unfold extend in IH' at 1 2. cbn [tracker] in IH'.
      rewrite Ht1, length_insert in IH'. fold B in IH'.
      destruct (IH' ltac:(lia) ltac:(lia) Hlen H)
        as (evs & k & Htr & Hsc & Hk & Hfb & Hp & Hf').
      unfold extend in Htr. cbn [trace] in Htr.
      exists (EvFetchBlockHashByNum (Int64.sub n idx) (Ok h) :: evs1 ++ evs), (k + 1).
      rewrite Htr, Htr0, <- !app_assoc. split; [reflexivity|].
      split.
      { constructor; [reflexivity|]. apply Forall_app. split; [|exact Hsc].
        apply is_log_scan_event. exact Hlog. }
      split; [lia|]. split.
      { cbn [fetched_blocks].
        rewrite fetched_blocks_app, (fetched_blocks_logs _ Hlog), Hfb.
        rewrite (seqZ_cons idx (k + 1)) by lia.
        replace (Z.succ idx) with (idx + 1) by lia.
        replace (Z.pred (k + 1)) with k by lia. reflexivity. }
      split.
      { intros Hres. destruct (Hp Hres) as [b Hb]. exists b. right.
        apply in_or_app. right. exact Hb. }
      { intros Hres. destruct (Hf' Hres) as [b Hb]. exists b. right.
        apply in_or_app. right. exact Hb. }
    + unfold LavaFormatError in H. inversion H. subst. cbn [trace].
      destruct Hev0 as [[Hnil _]|Hone']; subst evs0.
      * exists [EvLogError (ErrCouldNotGetBlockData (Int64.sub n idx) e0)], 0.
        rewrite Htr0, app_nil_r. split; [reflexivity|].
        repeat split; try discriminate; try lia. repeat constructor.
      * exists [EvFetchBlockHashByNum (Int64.sub n idx) (Err e0);
                EvLogError (ErrCouldNotGetBlockData (Int64.sub n idx) e0)], 1.
        rewrite Htr0, <- app_assoc. split; [reflexivity|].
        rewrite Hone. repeat split; try discriminate; try lia. repeat constructor.
    + inversion H. subst. destruct Hev0 as [[_ [e1 He1]]|Hone']; [discriminate|]; subst evs0.
      exists [EvFetchBlockHashByNum (Int64.sub n idx) Panic], 1.
      split; [exact Htr0|]. rewrite Hone.
      repeat split; try discriminate; try lia; [repeat constructor|].
      intros _. eexists. left. reflexivity.
    + inversion H. subst. destruct Hev0 as [[_ [e1 He1]]|Hone']; [discriminate|]; subst evs0.
      exists [EvFetchBlockHashByNum (Int64.sub n idx) OutOfFuel], 1.
      split; [exact Htr0|]. rewrite Hone.
      repeat split; try discriminate; try lia; [repeat constructor|].
      intros _. eexists. left. reflexivity.
Qed.

(** ** Every way a repair can end *)

Lemma fetchAllPreviousBlocks_outcome (n : Z) (w : World) res w' :
  let cs := tracker w in
  Uint64.in_range (blocksToSave cs) ->
  fetchAllPreviousBlocks n w = (res, w') ->
  exists evs k,
    trace w' = trace w ++ evs /\
    Forall (fun ev => is_scan_event ev = true) evs /\
    0 <= k <= blocksToSave cs /\
    fetched_blocks evs = (fun j => Int64.sub n j) <$> seqZ 0 k /\
    (bootstrap_state cs \/ window_inv cs -> Int64.in_range n ->
     (res = Panic -> exists b, In (EvFetchBlockHashByNum b Panic) evs) /\
     (res = OutOfFuel -> exists b, In (EvFetchBlockHashByNum b OutOfFuel) evs) /\
     (window_inv cs -> window_inv (tracker w'))).
Proof.
  intros cs Hbts Hrun. pose proof Hrun as Hrun0.
  rewrite fetchAllPreviousBlocks_eq in Hrun. cbv zeta in Hrun. fold cs in Hrun.
  unfold GetLatestBlockNum in Hrun.
  assert (Hnil : seqZ 0 0 = []) by reflexivity.
  destruct (Z.ltb_spec (Int64.of_uint64 (blocksToSave cs)) 0) as [HB|HB].
  { inversion Hrun. subst. exists [], 0. rewrite app_nil_r, Hnil.
    split; [reflexivity|]. split; [constructor|].
    split; [unfold Uint64.in_range in Hbts; lia|]. split; [reflexivity|].
    intros Hpre _. exfalso.
    assert (0 <= blocksToSave cs <= Int64.max_int).
    { destruct Hpre as [(_ & _ & Hb)|(Hb & _)]; lia. }
    int64_lia. }
  destruct (Int64_of_uint64_nonneg _ Hbts HB) as (HBeq & HBmax).
  destruct (Z.ltb_spec n (latestBlockNum cs)) as [Hold|Hnew].
  { inversion Hrun. subst. eexists. exists 0. unfold extend. cbn [trace tracker].
    split; [reflexivity|]. split; [repeat constructor|].
    split; [lia|]. rewrite Hnil. split; [reflexivity|].
    intros _ _. split; [discriminate|]. split; [discriminate|]. auto. }
  destruct (readHashes_loop _ _ _ _ _ _ _ _ w) as [r1 w1] eqn:Hscan.
  destruct (readHashes_loop_events _ _ _ _ _ _ _ _ _ _ _ Hscan) as (Ht & _).
  pose proof (readHashes_loop_fetches
                (Z.to_nat (Int64.of_uint64 (blocksToSave cs))) 0 n
                (Int64.sub n (latestBlockNum cs)) 0 0 0
                (replicate (Z.to_nat (Int64.of_uint64 (blocksToSave cs)))
                   {| Block := 0; Hash := "" |}) w r1 w1) as Hfet.
  cbv zeta in Hfet. specialize (Hfet ltac:(fold cs; lia) ltac:(lia)).
  rewrite length_replicate in Hfet.
  specialize (Hfet ltac:(fold cs; lia) Hscan).
  destruct Hfet as (evs & k & Htr & Hsc & Hk & Hfb & Hp & Hf).
  assert (Hk' : 0 <= k <= blocksToSave cs) by lia.
  destruct r1 as [sc|e| |].
  - destruct (new_window _ sc) as [q'|e| |] eqn:Hnw.
    + rewrite Ht in Hnw.
      pose proof (scan_new_window_length n w sc w1 q' Hbts HB Hscan Hnw) as Hlenq.
      fold cs in Hlenq.
      destruct (Z.ltb_spec (Z.of_nat (length q')) (blocksToSave cs)) as [Hchk|Hchk].
      * lia.
      * inversion Hrun. subst. exists evs, k. unfold with_tracker. cbn [trace tracker].
        split; [exact Htr|]. split; [exact Hsc|]. split; [exact Hk'|].
        split; [exact Hfb|]. intros Hpre Hn.
        split; [discriminate|]. split; [discriminate|]. intros Hinv.
        exact (repair_window_inv n w _ _ (or_intror Hinv)
                 (proj1 (proj1 Hinv)) Hn Hrun0).
    + exfalso. exact (new_window_no_error _ _ _ Hnw).
    + inversion Hrun. subst. exists evs, k. unfold with_tracker. cbn [trace tracker].
      split; [exact Htr|]. split; [exact Hsc|]. split; [exact Hk'|].
      split; [exact Hfb|]. intros Hpre Hn. exfalso.
      rewrite Ht in Hnw.
      destruct (scan_window n w sc w1 Hpre Hn Hnew Hscan) as (q'' & Hnw' & _).
      cbv zeta in Hnw'. congruence.
    + exfalso. unfold new_window, slice, slice_from in Hnw.
      destruct (_ >? 0); [|discriminate].
      destruct (_ && _); [|discriminate].
      destruct (_ && _); discriminate.
  - inversion Hrun. subst. exists evs, k.
    split; [exact Htr|]. split; [exact Hsc|]. split; [exact Hk'|].
    split; [exact Hfb|]. intros _ _.
    split; [discriminate|]. split; [discriminate|]. rewrite Ht. auto.
  - inversion Hrun. subst. exists evs, k.
    split; [exact Htr|]. split; [exact Hsc|]. split; [exact Hk'|].
    split; [exact Hfb|]. intros _ _.
    split; [intros _; apply Hp; reflexivity|]. split; [discriminate|]. rewrite Ht. auto.
  - inversion Hrun. subst. exists evs, k.
    split; [exact Htr|]. split; [exact Hsc|]. split; [exact Hk'|].
    split; [exact Hfb|]. intros _ _.
    split; [discriminate|]. split; [intros _; apply Hf; reflexivity|]. rewrite Ht. auto.
Qed.

(** X1. A repair asks the remote for the hashes of the blocks [n], [n - 1],
    [n - 2], ... in this order, one call each, and for at most
    [blocksToSave] of them; its only other events are reports to the
    error sink. *)
Theorem repair_fetches_backwards (n : Z) (w : World) res w' evs :
  Uint64.in_range (blocksToSave (tracker w)) ->
  fetchAllPreviousBlocks n w = (res, w') ->
  trace w' = trace w ++ evs ->
  Forall (fun ev => is_scan_event ev = true) evs /\
  exists k, 0 <= k <= blocksToSave (tracker w) /\
            fetched_blocks evs = (fun j => Int64.sub n j) <$> seqZ 0 k.
Proof.
  intros Hbts Hrun Htr.
  destruct (fetchAllPreviousBlocks_outcome n w res w' Hbts Hrun)
    as (evs' & k & Htr' & Hsc & Hk & Hfb & _).
  rewrite Htr' in Htr. apply app_inv_head in Htr. subst evs'.
  split; [exact Hsc|]. exists k. auto.
Qed.

(** X2. In a state the tracker can be in, the repair itself never panics:
    every index and slice it takes is in bounds. A repair that ends in a
    panic has been handed that panic by the remote. *)
Theorem repair_panics_only_with_remote (n : Z) (w : World) res w' evs :
  bootstrap_state (tracker w) \/ window_inv (tracker w) ->
  Int64.in_range n ->
  fetchAllPreviousBlocks n w = (res, w') ->
  trace w' = trace w ++ evs ->
  res = Panic -> exists b, In (EvFetchBlockHashByNum b Panic) evs.
Proof.
  intros Hpre Hn Hrun Htr Hres.
  assert (Hbts : Uint64.in_range (blocksToSave (tracker w))).
  { destruct Hpre as [(_ & _ & Hb)|(Hb & _)]; int64_lia. }
  destruct (fetchAllPreviousBlocks_outcome n w res w' Hbts Hrun)
    as (evs' & k & Htr' & _ & _ & _ & Hsafe).
  rewrite Htr' in Htr. apply app_inv_head in Htr. subst evs'.
  destruct (Hsafe Hpre Hn) as (Hp & _). exact (Hp Hres).
Qed.

(** ** Every way a poll cycle and a tick can end *)

Lemma scan_event_not_callback (evs : list event) :
  Forall (fun ev => is_scan_event ev = true) evs ->
  Forall (fun ev => is_callback ev = false) evs.
Proof.
  intros H. eapply Forall_impl; [exact H|].
  intros ev Hev. destruct ev; simpl in *; first [reflexivity | discriminate].
Qed.

(** The loop of the callbacks touches neither the tracker nor the remote
    and never returns an error. *)
Lemma newLatestCallback_loop_frame (fuel : nat) :
  forall (i n : Z) (tip : string) (w : World) res w',
    newLatestCallback_loop fuel i n tip w = (res, w') ->
    tracker w' = tracker w /\ remote w' = remote w /\ forall e, res <> Err e.
Proof.
  induction fuel as [|fuel IH]; intros i n tip w res w' H; simpl in H.
  - destruct (i <=? n); inversion H; subst; repeat split; discriminate.
  - destruct (i <=? n).
    2:{ inversion H; subst; repeat split; discriminate. }
    unfold bind, emit in H. cbn [fst snd] in H.
    destruct (newLatestCallback_loop fuel _ _ _ _) as [r1 w1] eqn:Hloop.
    apply IH in Hloop. cbn [tracker remote] in Hloop.
    destruct Hloop as (Ht & Hr & Hne).
    assert (res = r1 /\ w' = w1) as (-> & ->).
    { destruct r1 as [[]|e| |]; inversion H; auto. }
    auto.
Qed.

Lemma cycle_outcome (fuel : nat) (w : World) res w' :
  Uint64.in_range (blocksToSave (tracker w)) ->
  fetchAllPreviousBlocksIfNecessary fuel w = (res, w') ->
  (window_inv (tracker w) -> window_inv (tracker w')) /\
  (forall e, res = Err e ->
     tracker w' = tracker w /\
     exists evs, trace w' = trace w ++ evs /\
                 Forall (fun ev => is_callback ev = false) evs).
Proof.
  intros Hbts H. unfold fetchAllPreviousBlocksIfNecessary, bind_wrap in H.
  destruct (fetchLatestBlockNum w) as [r0 w1] eqn:Hl.
  destruct (fetchLatestBlockNum_cases _ _ _ Hl) as (Ht1 & Htr1 & Hrem).
  destruct r0 as [n|e0| |].
  2:{ unfold LavaFormatError in H. inversion H. subst. cbn [tracker trace].
      rewrite Ht1. split; [auto|]. intros e _. split; [reflexivity|].
      rewrite Htr1, <- app_assoc. eexists. split; [reflexivity|]. repeat constructor. }
  2:{ inversion H. subst. rewrite Ht1. split; [auto|]. discriminate. }
  2:{ inversion H. subst. rewrite Ht1. split; [auto|]. discriminate. }
  pose proof (FetchLatestBlockNum_int64 _ _ _ Hrem) as Hn.
  unfold bind at 1 in H. rewrite gotNewBlock_eq in H.
  destruct (forkChanged n w1) as [r2 w2] eqn:Hfork.
  destruct (forkChanged_events _ _ _ _ Hfork) as (Ht2 & evs2 & Htr2 & Hcb2).
  assert (Ht02 : tracker w2 = tracker w) by congruence.
  destruct r2 as [forked|e0| |].
  2:{ unfold LavaFormatError in H. inversion H. subst. cbn [tracker trace].
      rewrite Ht02. split; [auto|]. intros e _. split; [reflexivity|].
      rewrite Htr2, Htr1, <- !app_assoc. eexists. split; [reflexivity|].
      constructor; [reflexivity|]. apply Forall_app. split; [exact Hcb2|].
      repeat constructor. }
  2:{ inversion H. subst. rewrite Ht02. split; [auto|]. discriminate. }
  2:{ inversion H. subst. rewrite Ht02. split; [auto|]. discriminate. }
  destruct ((n >? latestBlockNum (tracker w1)) || forked).
  2:{ unfold ret in H. inversion H. subst. rewrite Ht02. split; [auto|]. discriminate. }
  unfold bind at 1, get at 1 in H. unfold bind at 1 in H.
  destruct (fetchAllPreviousBlocks n w2) as [r3 w3] eqn:Hrep.
  destruct (fetchAllPreviousBlocks_outcome n w2 r3 w3 ltac:(rewrite Ht02; exact Hbts) Hrep)
    as (evs3 & k & Htr3 & Hsc3 & _ & _ & Hsafe).
  rewrite Ht02 in Hsafe.
  assert (Hinv3 : window_inv (tracker w) -> window_inv (tracker w3)).
  { intros Hinv. apply (Hsafe (or_intror Hinv) Hn). exact Hinv. }
  destruct r3 as [tip|e3| |].
  2:{ inversion H. subst. split; [exact Hinv3|]. intros e _.
      destruct (fetchAllPreviousBlocks_Err n w2 e3 w' ltac:(rewrite Ht02; exact Hbts) Hrep)
        as (Ht3 & _).
      split; [congruence|].
      rewrite Htr3, Htr2, Htr1, <- !app_assoc. eexists. split; [reflexivity|].
      constructor; [reflexivity|]. apply Forall_app. split; [exact Hcb2|].
      apply scan_event_not_callback. exact Hsc3. }
  2:{ inversion H. subst. split; [exact Hinv3|]. discriminate. }
  2:{ inversion H. subst. split; [exact Hinv3|]. discriminate. }
  (* the repair succeeded: only callbacks follow *)
  assert (Hnews : forall (m : M unit) r4 w4,
            m = (if n >? latestBlockNum (tracker w1) then
                   if newLatestCallback (tracker w2) then
                     newLatestCallback_loop fuel
                       (Int64.add (GetLatestBlockNum (tracker w2)) 1) n tip
                   else ret tt
                 else ret tt) ->
            m w3 = (r4, w4) -> tracker w4 = tracker w3 /\ forall e, r4 <> Err e).
  { intros m r4 w4 -> Hm.
    destruct (n >? latestBlockNum (tracker w1));
      [destruct (newLatestCallback (tracker w2))|];
      try (unfold ret in Hm; inversion Hm; subst; split; [reflexivity|discriminate]).
    apply newLatestCallback_loop_frame in Hm. destruct Hm as (Ht & _ & Hne). auto. }
  unfold bind in H.
  match type of H with
  | (let (r, w'') := ?m w3 in _) = _ =>
    destruct (m w3) as [r4 w4] eqn:Hm; destruct (Hnews m r4 w4 eq_refl Hm) as (Ht4 & Hne4)
  end.
  assert (Hfk : tracker w' = tracker w4 /\ forall e, res <> Err e).
  { destruct r4 as [[]|e4| |].
    - destruct forked; [destruct (forkCallback (tracker w2))|];
        unfold emit, ret in H; inversion H; subst; split; auto; discriminate.
    - exfalso. exact (Hne4 e4 eq_refl).
    - inversion H. subst. split; [reflexivity|discriminate].
    - inversion H. subst. split; [reflexivity|discriminate]. }
  destruct Hfk as (Ht5 & Hne5). split.
  - intros Hinv. rewrite Ht5, Ht4. auto.
  - intros e He. exfalso. exact (Hne5 e He).
Qed.

Lemma count_events_no_callback (f : event -> bool) (evs : list event) :
  (forall ev, f ev = true -> is_callback ev = true) ->
  Forall (fun ev => is_callback ev = false) evs ->
  count_events f evs = 0%nat.
Proof.
  intros Hf Hcb. unfold count_events.
  induction Hcb as [|ev l Hev _ IH]; [reflexivity|].
  simpl. destruct (f ev) eqn:Hfev; [|exact IH].
  apply Hf in Hfev. congruence.
Qed.

(** X3. A poll cycle that returns an error (the latest number, the fork
    check or the repair failed) has changed nothing in the tracker and
    has called no callback. *)
Theorem failed_cycle_changes_nothing (fuel : nat) (w : World) e w' evs :
  Uint64.in_range (blocksToSave (tracker w)) ->
  fetchAllPreviousBlocksIfNecessary fuel w = (Err e, w') ->
  trace w' = trace w ++ evs ->
  tracker w' = tracker w /\
  count_events is_newLatestCallback evs = 0%nat /\
  count_events is_forkCallback evs = 0%nat.
Proof.
  intros Hbts Hrun Htr.
  destruct (cycle_outcome fuel w (Err e) w' Hbts Hrun) as (_ & Herr).
  destruct (Herr e eq_refl) as (Ht & evs' & Htr' & Hcb).
  rewrite Htr' in Htr. apply app_inv_head in Htr. subst evs'.
  split; [exact Ht|].
  split; apply count_events_no_callback; try exact Hcb;
    intros ev; unfold is_callback; destruct ev; simpl; auto.
Qed.

Lemma window_inv_set_ticker (d : Z) (cs : ChainTracker) :
  window_inv cs -> window_inv (set_ticker d cs).
Proof. unfold window_inv. simpl. auto. Qed.

Lemma NewTicker_cases (d : Z) (w : World) res w' :
  NewTicker d w = (res, w') ->
  (d <= 0 /\ res = Panic /\ w' = w) \/
  (0 < d /\ res = Ok tt /\ w' = with_tracker w (set_ticker d (tracker w))).
Proof.
  unfold NewTicker. destruct (Z.leb_spec d 0) as [Hd|Hd].
  - unfold lift. intros H. inversion H. left. auto.
  - unfold modify. intros H. inversion H. right. auto.
Qed.

(** X4. The poll loop keeps the window invariant at every moment after
    the bootstrap: [start], when it succeeds, leaves a full contiguous
    window ending at [latestBlockNum] and a ticker of a tenth of the
    polling time; and every tick of the loop, however it ends (success,
    error with backoff, even a panic), leaves such a window again. *)
Theorem poll_loop_keeps_window :
  (forall (pollingBlockTime : Z) (w : World) t w',
     bootstrap_state (tracker w) -> 0 < blocksToSave (tracker w) ->
     start pollingBlockTime w = (Ok t, w') ->
     window_inv (tracker w') /\ window_ok (tracker w') /\
     t = Z.quot pollingBlockTime 10 /\ 0 < t /\ ticker (tracker w') = t) /\
  (forall (fuel : nat) (tickerTime fetchFails : Z) (w : World) res w',
     window_inv (tracker w) ->
     start_tick fuel tickerTime fetchFails w = (res, w') ->
     window_inv (tracker w') /\ window_ok (tracker w')).
Proof.
  split.
  - intros p w t w' Hboot Hpos H. unfold start in H.
    unfold bind at 1 in H.
    destruct (NewTicker (Z.quot p 10) w) as [r0 w0] eqn:Hnt.
    destruct (NewTicker_cases _ _ _ _ Hnt) as [(_ & -> & _)|(Hd & -> & ->)];
      [discriminate|].
    unfold bind in H.
    destruct (fetchInitDataWithRetry _) as [[[]|e| |] w1] eqn:Hinit; try discriminate.
    unfold ret in H. inversion H. subst.
    assert (Hbts : Uint64.in_range (blocksToSave (tracker w))).
    { destruct Hboot as (_ & _ & Hb). int64_lia. }
    destruct (fetchInitDataWithRetry_Ok
                (with_tracker w (set_ticker (Z.quot p 10) (tracker w))) w' Hbts Hinit)
      as (n & v & h & Hn & Hv & Hok).
    cbn [with_tracker tracker] in Hv.
    assert (Hinv : window_inv (tracker w')).
    { apply (repair_window_inv n v h w'); auto; rewrite Hv; auto. }
    split; [exact Hinv|]. split; [apply window_inv_ok; exact Hinv|].
    split; [reflexivity|]. split; [exact Hd|].
    destruct (fetchAllPreviousBlocks_Ok _ _ _ _ Hok)
      as (_ & _ & sc & w1 & q' & _ & _ & _ & -> & _).
    cbn [with_tracker tracker].
    destruct (repaired_tracker_fields n (Int64.sub n (latestBlockNum (tracker v))) q'
                (tracker v)) as (_ & _ & _ & _ & _ & _ & F7).
    rewrite F7, Hv. reflexivity.
  - intros fuel t ff w res w' Hinv H.
    assert (Hbts : Uint64.in_range (blocksToSave (tracker w))).
    { destruct Hinv as (Hb & _). int64_lia. }
    unfold start_tick in H.
    destruct (fetchAllPreviousBlocksIfNecessary fuel w) as [r1 w1] eqn:Hc.
    destruct (cycle_outcome fuel w r1 w1 Hbts Hc) as (Hkeep & _).
    specialize (Hkeep Hinv).
    assert (Hgoal : window_inv (tracker w')).
    { destruct r1 as [[]|e| |].
      - destruct (negb (ff =? 0)).
        + unfold updateTicker, bind at 1 in H.
          destruct (NewTicker _ w1) as [r2 w2] eqn:Hnt.
          destruct (NewTicker_cases _ _ _ _ Hnt) as [(_ & -> & ->)|(_ & -> & ->)];
            unfold ret in H; inversion H; subst;
            first [exact Hkeep | apply window_inv_set_ticker; exact Hkeep].
        + unfold bind, ret in H. inversion H. subst. exact Hkeep.
      - unfold updateTicker, bind at 1 in H.
        destruct (NewTicker _ w1) as [r2 w2] eqn:Hnt.
        destruct (NewTicker_cases _ _ _ _ Hnt) as [(_ & -> & ->)|(_ & -> & ->)].
        + inversion H. subst. exact Hkeep.
        + unfold bind, LavaFormatError_, emit, ret in H. inversion H. subst.
          first [exact Hkeep | apply window_inv_set_ticker; exact Hkeep].
      - inversion H. subst. exact Hkeep.
      - inversion H. subst. exact Hkeep. }
    split; [exact Hgoal|apply window_inv_ok; exact Hgoal].
Qed.

(** X5. With fewer than 10 nanoseconds of polling time the period of
    the ticker is not positive: [start] panics at once, before any call
    to the remote. *)
Theorem start_panics_below_ten (pollingBlockTime : Z) (w : World) :
  pollingBlockTime < 10 -> start pollingBlockTime w = (Panic, w).
Proof.
  intros Hp. unfold start, bind, NewTicker.
  assert (Hq : Z.quot pollingBlockTime 10 <= 0).
  { destruct (Z.le_gt_cases 0 pollingBlockTime) as [Hnn|Hneg].
    - rewrite Z.quot_small by lia. lia.
    - pose proof (Z.quot_opp_l pollingBlockTime 10 ltac:(lia)) as Hopp.
      pose proof (Z.quot_pos (- pollingBlockTime) 10 ltac:(lia) ltac:(lia)). lia. }
  destruct (Z.leb_spec (Z.quot pollingBlockTime 10) 0); [reflexivity|lia].
Qed.

(** ** Bounds of the backoff *)

(** X6. The backoff never exceeds 10 minutes and no longer grows after 10
    failures. For a positive base tick whose 1024-fold fits a
    [time.Duration], it is positive (so [updateTicker] never hands
    [time.NewTicker] a period that makes it panic), at least the smaller
    of the base and 10 minutes, and it never shrinks when the failures
    grow. *)
Theorem exponentialBackoff_bounds (base n m : Z) :
  0 <= n <= m ->
  exponentialBackoff base n <= BACKOFF_MAX_TIME /\
  (10 <= n -> exponentialBackoff base n = exponentialBackoff base 10) /\
  (0 < base -> Int64.in_range (base * 1024) ->
   0 < exponentialBackoff base n /\
   Z.min base BACKOFF_MAX_TIME <= exponentialBackoff base n /\
   exponentialBackoff base n <= exponentialBackoff base m).
Proof.
  intros Hnm.
  rewrite !exponentialBackoff_eq by lia.
  split; [lia|]. split.
  { intros Hn. replace (Z.min n 10) with 10 by lia. reflexivity. }
  intros Hbase Hfit.
  assert (Hmul : forall k, 0 <= k ->
            Int64.mul base (2 ^ Z.min k 10) = base * 2 ^ Z.min k 10 /\
            base <= base * 2 ^ Z.min k 10).
  { intros k Hk. pose proof (pow2_small (Z.min k 10) ltac:(lia)) as Hp.
    assert (base * 2 ^ Z.min k 10 <= base * 1024) by (apply Z.mul_le_mono_nonneg_l; lia).
    assert (base * 1 <= base * 2 ^ Z.min k 10) by (apply Z.mul_le_mono_nonneg_l; lia).
    split; [|lia]. unfold Int64.mul. apply Int64_wrap_id.
    unfold Int64.in_range, Int64.min_int in *. lia. }
  destruct (Hmul n ltac:(lia)) as (-> & Hn1).
  destruct (Hmul m ltac:(lia)) as (-> & Hm1).
  assert (Hmono : base * 2 ^ Z.min n 10 <= base * 2 ^ Z.min m 10).
  { apply Z.mul_le_mono_nonneg_l; [lia|]. apply Z.pow_le_mono_r; lia. }
  assert (0 < BACKOFF_MAX_TIME) by reflexivity.
  repeat split; lia.
Qed.

(** ** The cost of the bootstrap *)

Definition is_fetchLatest (ev : event) : bool :=
  match ev with EvFetchLatestBlockNum _ => true | _ => false end.

Definition is_fetchHash (ev : event) : bool :=
  match ev with EvFetchBlockHashByNum _ _ => true | _ => false end.

Lemma count_fetchHash (evs : list event) :
  count_events is_fetchHash evs = length (fetched_blocks evs).
Proof.
  unfold count_events. induction evs as [|ev evs IH]; [reflexivity|].
  destruct ev; simpl; rewrite ?IH; reflexivity.
Qed.

Lemma count_fetchLatest_scan (evs : list event) :
  Forall (fun ev => is_scan_event ev = true) evs ->
  count_events is_fetchLatest evs = 0%nat.
Proof.
  unfold count_events. induction 1 as [|ev evs Hev _ IH]; [reflexivity|].
  destruct ev; simpl in *; try discriminate; exact IH.
Qed.

(** The retry loop makes at most [retries] calls; while the calls fail
    they keep what a failing call keeps. *)
Lemma retry_bounded {A} (I : World -> Prop) (f : event -> bool) (c : nat) (m : M A) :
  (forall w res w', I w -> m w = (res, w') ->
     (exists evs, trace w' = trace w ++ evs /\ (count_events f evs <= c)%nat) /\
     (forall e, res = Err e -> I w')) ->
  forall retries res0 (w1 : World) res w',
    ((exists e, res0 = Err e) -> I w1) ->
    retry retries m res0 w1 = (res, w') ->
    (exists evs, trace w' = trace w1 ++ evs /\
                 (count_events f evs <= retries * c)%nat) /\
    (forall e, res = Err e -> I w').
Proof.
  intros Hm. induction retries as [|k IH]; intros res0 w1 res w' HI H.
  - assert (res = res0 /\ w' = w1) as (-> & ->).
    { simpl in H. destruct res0; inversion H; auto. }
    split; [exists []; rewrite app_nil_r; split; [reflexivity|unfold count_events; simpl; lia]|].
    intros e He. apply HI. eauto.
  - destruct res0 as [a|e0| |];
      try (simpl in H; inversion H; subst;
           split; [exists []; rewrite app_nil_r; split; [reflexivity|unfold count_events; simpl; lia]
                  |discriminate]).
    simpl in H. destruct (m w1) as [r2 w2] eqn:Hcall.
    destruct (Hm w1 r2 w2 (HI ltac:(eauto)) Hcall) as ((evs1 & Htr1 & Hc1) & HI2).
    destruct (IH r2 w2 res w' ltac:(intros [e He]; eauto) H)
      as ((evs2 & Htr2 & Hc2) & HI').
    split; [|exact HI'].
    exists (evs1 ++ evs2). rewrite Htr2, Htr1, <- app_assoc. split; [reflexivity|].
    rewrite count_events_app. lia.
Qed.

Lemma with_retry_bounded {A} (I : World -> Prop) (f : event -> bool) (c : nat)
    (m : M A) (retries : nat) :
  (forall w res w', I w -> m w = (res, w') ->
     (exists evs, trace w' = trace w ++ evs /\ (count_events f evs <= c)%nat) /\
     (forall e, res = Err e -> I w')) ->
  forall (w : World) res w',
    I w -> with_retry retries m w = (res, w') ->
    (exists evs, trace w' = trace w ++ evs /\
                 (count_events f evs <= (1 + retries) * c)%nat) /\
    (forall e, res = Err e -> I w').
Proof.
  intros Hm w res w' HI H. unfold with_retry in H.
  destruct (m w) as [r1 w1] eqn:Hcall.
  destruct (Hm w r1 w1 HI Hcall) as ((evs1 & Htr1 & Hc1) & HI1).
  destruct (retry_bounded I f c m Hm retries r1 w1 res w'
              ltac:(intros [e He]; eauto) H) as ((evs2 & Htr2 & Hc2) & HI').
  split; [|exact HI'].
  exists (evs1 ++ evs2). rewrite Htr2, Htr1, <- app_assoc. split; [reflexivity|].
  rewrite count_events_app. lia.
Qed.

Lemma with_retry_always {A} (I : World -> Prop) (m : M A) (retries : nat) :
  (forall w res w', I w -> m w = (res, w') -> I w') ->
  forall (w : World) res w', I w -> with_retry retries m w = (res, w') -> I w'.
Proof.
  intros Hm w res w' Hw H. unfold with_retry in H.
  destruct (m w) as [r1 w1] eqn:Hcall.
  assert (Hw1 : I w1) by (eapply Hm; eauto). clear Hcall Hw.
  revert r1 w1 Hw1 H.
  induction retries as [|k IH]; intros r1 w1 Hw1 H.
  - simpl in H. destruct r1; inversion H; subst; exact Hw1.
  - destruct r1 as [a|e0| |]; try (simpl in H; inversion H; subst; exact Hw1).
    simpl in H. destruct (m w1) as [r2 w2] eqn:Hcall2.
    apply (IH r2 w2); [eapply Hm; eauto|exact H].
Qed.

(** X7. The bootstrap asks the remote for the latest block number at most
    5 times (a first call and [initRetriesCount] retries) and for at most
    5 times [blocksToSave] hashes, and calls no callback. When it fails,
    its error is the critical one and the tracker is as
    [NewChainTracker] built it. *)
Theorem bootstrap_is_bounded (w : World) res w' evs :
  Uint64.in_range (blocksToSave (tracker w)) ->
  fetchInitDataWithRetry w = (res, w') ->
  trace w' = trace w ++ evs ->
  (count_events is_fetchLatest evs <= 5)%nat /\
  (count_events is_fetchHash evs <= 5 * Z.to_nat (blocksToSave (tracker w)))%nat /\
  count_events is_callback evs = 0%nat /\
  (forall e, res = Err e ->
     tracker w' = tracker w /\ exists cause, e = ErrCriticalInit cause).
Proof.
  intros Hbts H Htr.
  set (cs := tracker w) in *.
  (* what one call of each kind costs, for any way of counting *)
  assert (Hlatest : forall (f : event -> bool) (c : nat),
            (forall r, (count_events f [EvFetchLatestBlockNum r] <= c)%nat) ->
            forall (v : World) r v', tracker v = cs -> fetchLatestBlockNum v = (r, v') ->
              (exists l, trace v' = trace v ++ l /\ (count_events f l <= c)%nat) /\
              (forall e, r = Err e -> tracker v' = cs)).
  { intros f c Hc v r v' Hv Hcall.
    destruct (fetchLatestBlockNum_cases _ _ _ Hcall) as (Ht & Htr1 & _).
    split; [eexists; split; [exact Htr1|apply Hc]|]. intros; congruence. }
  assert (Hrepair : forall (n : Z) (f : event -> bool) (c : nat),
            (forall l, Forall (fun ev => is_scan_event ev = true) l ->
                       (length (fetched_blocks l) <= Z.to_nat (blocksToSave cs))%nat ->
                       (count_events f l <= c)%nat) ->
            forall (v : World) r v', tracker v = cs ->
              fetchAllPreviousBlocks n v = (r, v') ->
              (exists l, trace v' = trace v ++ l /\ (count_events f l <= c)%nat) /\
              (forall e, r = Err e -> tracker v' = cs)).
  { intros n f c Hc v r v' Hv Hcall.
    destruct (fetchAllPreviousBlocks_outcome n v r v' ltac:(rewrite Hv; exact Hbts) Hcall)
      as (l & k & Htr1 & Hsc & Hk & Hfb & _).
    split.
    - exists l. split; [exact Htr1|]. apply Hc; [exact Hsc|].
      rewrite Hfb, length_fmap, length_seqZ. rewrite Hv in Hk. lia.
    - intros e ->.
      destruct (fetchAllPreviousBlocks_Err n v e v' ltac:(rewrite Hv; exact Hbts) Hcall)
        as (Ht & _). congruence. }
  (* the two phases *)
  assert (Hmain : forall (f : event -> bool) (c1 c2 : nat),
            (forall r, (count_events f [EvFetchLatestBlockNum r] <= c1)%nat) ->
            (forall l, Forall (fun ev => is_scan_event ev = true) l ->
                       (length (fetched_blocks l) <= Z.to_nat (blocksToSave cs))%nat ->
                       (count_events f l <= c2)%nat) ->
            (forall e, f (EvLogError e) = false) ->
            (count_events f evs <= 5 * c1 + 5 * c2)%nat).
  { intros f c1 c2 Hc1 Hc2 Hlog.
    unfold fetchInitDataWithRetry, bind_wrap in H.
    destruct (with_retry initRetriesCount fetchLatestBlockNum w) as [r1 w1] eqn:H1.
    destruct (with_retry_bounded (fun v => tracker v = cs) f c1 fetchLatestBlockNum
                initRetriesCount (Hlatest f c1 Hc1) w r1 w1 eq_refl H1)
      as ((l1 & Htr1 & Hn1) & _).
    assert (Ht1 : tracker w1 = cs).
    { apply (with_retry_always (fun v => tracker v = cs) fetchLatestBlockNum
               initRetriesCount) with (w := w) (res := r1); auto.
      intros v r v' Hv Hcall.
      destruct (fetchLatestBlockNum_cases _ _ _ Hcall) as (Ht & _). congruence. }
    unfold initRetriesCount in Hn1.
    assert (Hlog1 : forall e, count_events f [EvLogError e] = 0%nat).
    { intros e. unfold count_events. simpl. rewrite Hlog. reflexivity. }
    destruct r1 as [n|e1| |].
    2:{ unfold LavaFormatError in H. inversion H. subst. cbn [trace] in Htr.
        rewrite Htr1, <- app_assoc in Htr. apply app_inv_head in Htr. subst evs.
        rewrite count_events_app, Hlog1. lia. }
    2:{ inversion H. subst. rewrite Htr1 in Htr. apply app_inv_head in Htr. subst evs.
        lia. }
    2:{ inversion H. subst. rewrite Htr1 in Htr. apply app_inv_head in Htr. subst evs.
        lia. }
    destruct (with_retry initRetriesCount (fetchAllPreviousBlocks n) w1)
      as [r2 w2] eqn:H2.
    destruct (with_retry_bounded (fun v => tracker v = cs) f c2
                (fetchAllPreviousBlocks n) initRetriesCount (Hrepair n f c2 Hc2)
                w1 r2 w2 Ht1 H2) as ((l2 & Htr2 & Hn2) & _).
    unfold initRetriesCount in Hn2.
    assert (Htrace : trace w2 = trace w ++ l1 ++ l2).
    { rewrite Htr2, Htr1, <- app_assoc. reflexivity. }
    destruct r2 as [h|e2| |].
    - unfold ret in H. inversion H. subst. rewrite Htrace in Htr.
      apply app_inv_head in Htr. subst evs. rewrite count_events_app. lia.
    - unfold LavaFormatError in H. inversion H. subst. cbn [trace] in Htr.
      rewrite Htrace, <- !app_assoc in Htr. apply app_inv_head in Htr. subst evs.
      rewrite !count_events_app, Hlog1. lia.
    - inversion H. subst. rewrite Htrace in Htr.
      apply app_inv_head in Htr. subst evs. rewrite count_events_app. lia.
    - inversion H. subst. rewrite Htrace in Htr.
      apply app_inv_head in Htr. subst evs. rewrite count_events_app. lia. }
  split.
  { pose proof (Hmain is_fetchLatest 1%nat 0%nat) as Hb.
    assert (count_events is_fetchLatest evs <= 5 * 1 + 5 * 0)%nat; [|lia].
    apply Hb; [intros; unfold count_events; simpl; lia| |reflexivity].
    intros l Hl _. rewrite count_fetchLatest_scan by exact Hl. lia. }
  split.
  { pose proof (Hmain is_fetchHash 0%nat (Z.to_nat (blocksToSave cs))) as Hb.
    assert (count_events is_fetchHash evs <=
            5 * 0 + 5 * Z.to_nat (blocksToSave cs))%nat; [|lia].
    apply Hb; [intros; unfold count_events; simpl; lia| |reflexivity].
    intros l _ Hl. rewrite count_fetchHash. exact Hl. }
  split.
  { pose proof (Hmain is_callback 0%nat 0%nat) as Hb.
    assert (count_events is_callback evs <= 5 * 0 + 5 * 0)%nat; [|lia].
    apply Hb; [intros; unfold count_events; simpl; lia| |reflexivity].
    intros l Hl _.
    rewrite (count_events_no_callback is_callback l); [lia|auto|].
    apply scan_event_not_callback. exact Hl. }
  intros e ->.
  unfold fetchInitDataWithRetry, bind_wrap in H.
  destruct (with_retry initRetriesCount fetchLatestBlockNum w) as [r1 w1] eqn:H1.
  assert (Ht1 : tracker w1 = cs).
  { apply (with_retry_always (fun v => tracker v = cs) fetchLatestBlockNum
             initRetriesCount) with (w := w) (res := r1); auto.
    intros v r v' Hv Hcall.
    destruct (fetchLatestBlockNum_cases _ _ _ Hcall) as (Ht & _). congruence. }
  destruct r1 as [n|e1| |]; try discriminate.
  2:{ unfold LavaFormatError in H. inversion H. subst. cbn [tracker]. eauto. }
  destruct (with_retry initRetriesCount (fetchAllPreviousBlocks n) w1)
    as [r2 w2] eqn:H2.
  destruct r2 as [h|e2| |]; try discriminate.
  unfold LavaFormatError in H. inversion H. subst. cbn [tracker]. split; [|eauto].
  destruct (with_retry_bounded (fun v => tracker v = cs) is_callback 0%nat
              (fetchAllPreviousBlocks n) initRetriesCount) with
    (w := w1) (res := @Err string e2) (w' := w2) as (_ & Hfinal); auto.
  { apply Hrepair. intros l Hl _.
    rewrite (count_events_no_callback is_callback l); [lia|auto|].
    apply scan_event_not_callback. exact Hl. }
  eapply Hfinal. reflexivity.
Qed.

(** ** Where the records of the window come from *)

Lemma tracker_extend (w : World) (evs : list event) :
  tracker (extend w evs) = tracker w.
Proof. reflexivity. Qed.

(** Every slot a scan has written holds the hash the remote gave for
    that block during the scan. *)
Lemma readHashes_loop_provenance todo : forall idx n rd s e nqs nq (w : World) sc w',
  readHashes_loop todo idx n rd s e nqs nq w = (Ok sc, w') ->
  let B := Int64.of_uint64 (blocksToSave (tracker w)) in
  Z.of_nat todo = B - idx -> 0 <= idx -> Z.of_nat (length nq) = B ->
  exists evs,
    trace w' = trace w ++ evs /\
    forall j, idx <= j < scan_idx sc ->
      exists hj,
        scan_newBlocksQueue sc !! Z.to_nat (B - 1 - j) =
          Some {| Block := Int64.sub n j; Hash := hj |} /\
        In (EvFetchBlockHashByNum (Int64.sub n j) (Ok hj)) evs.
Proof.
  induction todo as [|todo IH]; intros idx n rd s e nqs nq w sc w' H B Htodo Hidx Hlen.
  - simpl in H. inversion H. exists []. rewrite app_nil_r. split; [reflexivity|].
    simpl. intros j Hj. lia.
  - pose proof H as Hwhole. simpl in H. unfold bind_wrap in H.
    destruct (fetchBlockHashByNum (Int64.sub n idx) w) as [r0 w1] eqn:Hf.
    destruct (fetchBlockHashByNum_trace _ _ _ _ Hf) as (Ht1 & evs0 & Htr0 & Hev0).
    destruct r0 as [h|e0| |]; try discriminate.
    destruct Hev0 as [[_ [e1 He1]]|Hev0]; [discriminate|]. subst evs0.
    destruct (hashesOverlapIndexes_spec rd idx (Int64.sub n idx) h w1)
      as (found & s1 & e1 & nqs1 & evs1 & Ho & _).
    unfold bind at 1 in H. rewrite Ho in H.
    assert (HB : Int64.in_range B) by apply Int64_wrap_in_range.
    destruct found.
    + unfold ret in H. inversion H. subst. unfold extend. cbn [trace scan_idx].
      eexists. rewrite Htr0, <- app_assoc. split; [reflexivity|]. intros j Hj. lia.
    + unfold bind, get, lift in H. simpl in H. rewrite Ht1 in H. fold B in H.
      assert (Hslot : Int64.sub (Int64.sub B 1) idx = B - 1 - idx) by int64_lia.
      rewrite Hslot in H. rewrite (store_in_range nq (B - 1 - idx)) in H by lia.
      assert (Hnext : Int64.add idx 1 = idx + 1) by int64_lia.
      rewrite Hnext in H.
      set (nq1 := <[Z.to_nat (B - 1 - idx) :=
                      {| Block := Int64.sub n idx; Hash := h |}]> nq) in *.
      pose proof (IH (idx + 1) n rd s1 e1 nqs1 nq1 (extend w1 evs1) sc w' H) as IH'.
      pose proof (readHashes_loop_Ok todo (idx + 1) n rd s1 e1 nqs1 nq1
                    (extend w1 evs1) sc w' H) as Hok.
      cbv zeta in IH', Hok. rewrite !tracker_extend, !Ht1 in IH', Hok.
      fold B in IH', Hok.
      assert (Hlen1 : Z.of_nat (length nq1) = B).
      { subst nq1. rewrite length_insert. exact Hlen. }
      destruct (IH' ltac:(lia) ltac:(lia) Hlen1) as (evs & Htr & Hprov).
      destruct (Hok ltac:(lia) ltac:(lia) Hlen1) as (_ & _ & Hkeep & _).
      unfold extend in Htr. cbn [trace] in Htr.
      exists (EvFetchBlockHashByNum (Int64.sub n idx) (Ok h) :: evs1 ++ evs).
      rewrite Htr, Htr0, <- !app_assoc. split; [reflexivity|].
      intros j Hj. destruct (Z.eq_dec j idx) as [->|Hne].
      * exists h. split; [|left; reflexivity].
        assert (Hidx' : idx < B) by lia.
        rewrite (Hkeep (Z.to_nat (B - 1 - idx))) by lia.
        subst nq1. apply list_lookup_insert_eq. lia.
      * destruct (Hprov j ltac:(lia)) as (hj & Hs & Hin).
        exists hj. split; [exact Hs|]. right. apply in_or_app. right. exact Hin.
Qed.

(** X8. After a successful repair in a state the tracker can be in, every
    record of the window is either a record the window already had, or
    holds the hash the remote returned for its block during this repair. *)
Theorem repair_records_provenance (n : Z) (w : World) tip w' evs (x : BlockStore) :
  bootstrap_state (tracker w) \/ window_inv (tracker w) ->
  Int64.in_range n ->
  fetchAllPreviousBlocks n w = (Ok tip, w') ->
  trace w' = trace w ++ evs ->
  In x (blocksQueue (tracker w')) ->
  In x (blocksQueue (tracker w)) \/
  In (EvFetchBlockHashByNum (Block x) (Ok (Hash x))) evs.
Proof.
  intros Hpre Hn Hok Htr Hx.
  destruct (fetchAllPreviousBlocks_Ok _ _ _ _ Hok)
    as (HB & Hcn & sc & w1 & q' & Hscan & Ht & Hnw & Hw' & _).
  destruct (scan_window n w sc w1 Hpre Hn Hcn Hscan) as (q'' & Hnw' & _ & Hyes & Hno).
  cbv zeta in Hnw', Hyes, Hno.
  rewrite Hnw in Hnw'. inversion Hnw'. subst q''. clear Hnw'.
  assert (Hb : 0 <= blocksToSave (tracker w) <= Int64.max_int).
  { destruct Hpre as [(_ & _ & Hb)|(Hb & _)]; lia. }
  assert (HBeq : Int64.of_uint64 (blocksToSave (tracker w)) = blocksToSave (tracker w)).
  { apply Int64_wrap_id. int64_lia. }
  pose proof (readHashes_loop_provenance _ _ _ _ _ _ _ _ _ _ _ Hscan) as Hprov.
  cbv zeta in Hprov. rewrite length_replicate in Hprov.
  destruct (Hprov ltac:(lia) ltac:(lia) ltac:(lia)) as (evs1 & Htr1 & Hslots).
  rewrite HBeq in Hslots.
  assert (Hevs : evs = evs1).
  { subst w'. unfold with_tracker in Htr. cbn [trace] in Htr.
    rewrite Htr1 in Htr. apply app_inv_head in Htr. auto. }
  subst evs1.
  assert (Hq : blocksQueue (tracker w') = q').
  { subst w'. unfold with_tracker. cbn [tracker].
    apply (repaired_tracker_fields n _ q' (tracker w)). }
  rewrite Hq in Hx.
  destruct (readHashes_loop_Ok _ _ _ _ _ _ _ _ _ _ _ Hscan ltac:(lia) ltac:(lia)
              ltac:(rewrite length_replicate; lia)) as (Hlen & _).
  rewrite length_replicate in Hlen.
  (* a record of the new queue at a slot the scan wrote *)
  assert (Hnew : forall p : nat,
            blocksToSave (tracker w) - scan_idx sc <= Z.of_nat p ->
            scan_newBlocksQueue sc !! p = Some x ->
            In (EvFetchBlockHashByNum (Block x) (Ok (Hash x))) evs).
  { intros p Hp Hlook.
    assert (Hlt : (p < length (scan_newBlocksQueue sc))%nat).
    { apply lookup_lt_Some in Hlook. exact Hlook. }
    destruct (Hslots (blocksToSave (tracker w) - 1 - Z.of_nat p) ltac:(lia))
      as (hj & Hs & Hin).
    replace (Z.to_nat (blocksToSave (tracker w) - 1 -
                       (blocksToSave (tracker w) - 1 - Z.of_nat p))) with p in Hs by lia.
    rewrite Hlook in Hs. inversion Hs. subst x. exact Hin. }
  apply list_elem_of_In in Hx. apply list_elem_of_lookup in Hx. destruct Hx as [p Hp].
  destruct (scan_foundOverlap sc) eqn:Hfound.
  - destruct (Hyes eq_refl) as (Hi & Hrd & Hei & _ & _ & _ & Hq').
    destruct Hpre as [(Hq0 & _)|Hinv].
    { (* an empty window accepts no anchor *)
      exfalso. destruct (Hyes eq_refl) as (_ & _ & _ & (hh & Hacc) & _).
      destruct Hacc as (_ & Hbad & _). rewrite Hq0 in Hbad. simpl in Hbad. int64_lia. }
    assert (Hlenq : Z.of_nat (length (blocksQueue (tracker w))) = blocksToSave (tracker w)).
    { destruct Hinv as (_ & Hblocks & _). rewrite (blocks_length _ _ _ Hblocks). lia. }
    rewrite Hq' in Hp. apply lookup_app_Some in Hp.
    destruct Hp as [Hp|(Hge & Hp)].
    + left. apply lookup_take_Some in Hp. destruct Hp as (Hp & _).
      rewrite lookup_drop in Hp. apply list_elem_of_In.
      apply list_elem_of_lookup. eauto.
    + right. rewrite lookup_drop in Hp. eapply Hnew; [|exact Hp]. lia.
  - destruct (Hno eq_refl) as (Hidx & Hq'). right.
    rewrite Hq' in Hp. eapply Hnew; [|exact Hp]. lia.
Qed.

End Proofs.

(** C5. [gotNewBlock] answers whether the new latest block is above
    [latestBlockNum], and writes nothing. With [latestBlockNum] the number
    of the newest record of the window, [forkChanged] asks the remote
    (through the wrapper) for the hash of that record's block, whether
    the new latest block is the same or a later one, and answers whether
    that hash differs from the saved one; it writes nothing to the
    tracker. Both answers can be yes in one cycle. *)
Theorem fork_detector :
  (forall (R : Type) (fetcher : ChainFetcher R) (n : Z) (w : @World R),
     let cs := tracker w in
     let saved := getLatestBlockUnsafe cs in
     latestBlockNum cs = Block saved ->
     gotNewBlock n w = (Ok (n >? latestBlockNum cs), w) /\
     ((n >? latestBlockNum cs) = true <-> latestBlockNum cs < n) /\
     forall res w',
       fetchBlockHashByNum (Block saved) w = (res, w') ->
       forkChanged n w =
         (result_map (fun hash => negb (String.eqb (Hash saved) hash)) res, w') /\
       tracker w' = cs /\
       (fst (forkChanged n w) = Ok true <->
        exists hash, res = Ok hash /\ hash <> Hash saved)) /\
  (exists (w : @World Chain) (n : Z),
     fst (gotNewBlock n w) = Ok true /\ fst (forkChanged n w) = Ok true).
Proof.
  split.
  - intros R fetcher n w. apply fork_detector_flags.
  - exists {| remote := {| chain_latest := Ok 2; chain_hashes := [(1, "b"); (2, "c")] |};
              tracker :=
                set_blocksQueue [{| Block := 1; Hash := "a" |}]
                  (set_latestBlockNum 1 (NewChainTracker_init 1 10 10 true true));
              trace := [] |}, 2.
    split; reflexivity.
Qed.

(** C8, as the spec words it, fails: with a base tick of 11 minutes the
    backoff of 0 failures is 10 minutes, not the base. *)
Lemma exponentialBackoff_zero_not_base :
  exponentialBackoff (11 * Minute) 0 <> 11 * Minute.
Proof. vm_compute. discriminate. Qed.

(** C10, as the spec words it, fails: no repair returns an error with the
    window or [latestBlockNum] changed. *)
Lemma repair_error_never_after_write :
  ~ exists (R : Type) (fetcher : ChainFetcher R) (n : Z) (w : @World R) err w',
      Uint64.in_range (blocksToSave (tracker w)) /\
      fetchAllPreviousBlocks n w = (Err err, w') /\
      (blocksQueue (tracker w') <> blocksQueue (tracker w) \/
       latestBlockNum (tracker w') <> latestBlockNum (tracker w)).
Proof.
  intros (R & fetcher & n & w & err & w' & Hbts & Herr & Hdiff).
  destruct (fetchAllPreviousBlocks_Err n w err w' Hbts Herr) as (Ht & _).
  rewrite Ht in Hdiff. destruct Hdiff as [H|H]; apply H; reflexivity.
Qed.

(** ** The scenarios of the spec, run on the model *)

Definition world (c : Chain) (cs : ChainTracker) : @World Chain :=
  {| remote := c; tracker := cs; trace := [] |}.

Definition chain_of (latest : Z) (hashes : list (Z * string)) : Chain :=
  {| chain_latest := Ok latest; chain_hashes := hashes |}.

Definition hashes100 : list (Z * string) :=
  [(100, "h100"); (99, "h99"); (98, "h98"); (97, "h97")].

(** Bootstrap at block 100 with a window of 4. *)
Definition w_boot : @World Chain :=
  world (chain_of 100 hashes100) (NewChainTracker_init 4 100 10 true true).

Definition w100 : @World Chain :=
  Eval vm_compute in snd (fetchInitDataWithRetry w_boot).

Definition cs100 : ChainTracker := Eval vm_compute in tracker w100.

(** The remote advances to 101. *)
Definition w100_101 : @World Chain :=
  world (chain_of 101 ((101, "h101") :: hashes100)) cs100.

Definition scan101 : scan * @World Chain :=
  Eval vm_compute in
    match readHashes_loop 4 0 101 1 0 0 0
            (replicate 4 {| Block := 0; Hash := "" |}) w100_101 with
    | (Ok sc, w) => (sc, w)
    | (_, w) => ({| scan_idx := 0; scan_foundOverlap := false;
                    scan_blocksQueueStartIndex := 0; scan_blocksQueueEndIndex := 0;
                    scan_newQueueStartIndex := 0; scan_newBlocksQueue := [] |}, w)
    end.

Definition w101 : @World Chain :=
  Eval vm_compute in snd (fetchAllPreviousBlocks 101 w100_101).

(** The remote advances to 104 and block 101 has a new hash. *)
Definition w101_104 : @World Chain :=
  world (chain_of 104 [(104, "h104"); (103, "h103"); (102, "h102"); (101, "x101")])
    (tracker w101).

Definition w104_1 : @World Chain := Eval vm_compute in snd (fetchLatestBlockNum w101_104).
Definition w104_2 : @World Chain := Eval vm_compute in snd (forkChanged 104 w104_1).
Definition w104_3 : @World Chain :=
  Eval vm_compute in snd (fetchAllPreviousBlocks 104 w104_2).

(** The remote is down, or has lost block 100. *)
Definition w100_down : @World Chain :=
  world {| chain_latest := Err (ErrFetcher "down"); chain_hashes := [] |} cs100.

Definition w100_gap : @World Chain :=
  world (chain_of 101 [(101, "h101")]) cs100.

(** The remote has not moved since the repair to 104. *)
Definition w104_same : @World Chain :=
  world (chain_of 104 [(104, "h104"); (103, "h103"); (102, "h102"); (101, "x101")])
    (tracker w104_3).

Ltac by_compute :=
  vm_compute; repeat split; try reflexivity; try discriminate;
  intros; discriminate.

Lemma fetchBlockHashByNum_too_early_witness :
  fetchBlockHashByNum (-5) w100 =
    (Err (ErrorFailedToFetchTooEarlyBlock (-5) 100 100), w100) /\
  fst (fetchBlockHashByNum 99 w100) = Ok "h99".
Proof.
  split.
  - apply (proj1 (proj1 (fetchBlockHashByNum_too_early (-5) w100))). by_compute.
  - rewrite (proj1 (proj2 (fetchBlockHashByNum_too_early 99 w100))); [reflexivity|].
    by_compute.
Defined.

Lemma exponentialBackoff_spec_witness :
  exponentialBackoff 1000000000 2 = 4000000000 /\
  exponentialBackoff 1000000000 0 = 1000000000 /\
  exists w2, start_tick 0 1000000000 1 w100_down = (Ok 2, w2) /\
             ticker (tracker w2) = 4000000000.
Proof.
  assert (Hb : Int64.in_range 1000000000) by by_compute.
  split; [|split].
  - rewrite (proj1 (exponentialBackoff_spec (R := Chain) 1000000000 2 Hb
                      ltac:(by_compute))).
    reflexivity.
  - apply (proj1 (proj2 (proj2 (proj2 (proj2
             (exponentialBackoff_spec (R := Chain) 1000000000 0 Hb
                ltac:(by_compute))))))).
    by_compute.
  - apply (proj1 (proj2 (proj2 (proj2 (proj2 (proj2
             (exponentialBackoff_spec (R := Chain) 1000000000 1 Hb
                ltac:(by_compute)))))))
             0%nat w100_down
             (snd (fetchAllPreviousBlocksIfNecessary 0 w100_down))
             (ErrCouldNotFetchLatestBlockNum (ErrFetcher "down"))).
    + reflexivity.
    + by_compute.
Defined.

Lemma window_invariant_witness :
  window_ok (tracker w100) /\ window_ok (tracker w101).
Proof.
  split.
  - apply (proj1 window_invariant w_boot w100).
    + by_compute.
    + by_compute.
    + reflexivity.
  - apply (proj2 window_invariant 101 w100_101 "h101" w101).
    + unfold window_inv. simpl. repeat split; try reflexivity; by_compute.
    + by_compute.
    + reflexivity.
Defined.

Lemma repair_splices_or_replaces_witness :
  exists h w2,
    fetchAllPreviousBlocks 101 w100_101 = (Ok h, w2) /\
    blocksQueue (tracker w2) =
      take 3 (drop 1 (blocksQueue cs100)) ++ drop 3 (scan_newBlocksQueue (fst scan101)).
Proof.
  destruct (repair_splices_or_replaces 101 w100_101 (fst scan101) (snd scan101))
    as (h & w2 & Hok & _ & Hyes & _).
  - right. unfold window_inv. simpl. repeat split; try reflexivity; by_compute.
  - by_compute.
  - by_compute.
  - reflexivity.
  - exists h, w2. split; [exact Hok|].
    destruct (Hyes eq_refl) as (_ & _ & _ & _ & _ & _ & Hq). exact Hq.
Defined.

Lemma repair_failure_and_monotonicity_witness :
  fst (fetchAllPreviousBlocks 101 w100_gap) =
    Err (ErrCouldNotGetBlockData 100 (ErrFetcher "no such block")) /\
  tracker (snd (fetchAllPreviousBlocks 101 w100_gap)) = cs100 /\
  fst (fetchAllPreviousBlocks 99 w100) = Err (ErrOlderThanCurrent 99 100) /\
  latestBlockNum (tracker w100_101) <= latestBlockNum (tracker w101).
Proof.
  destruct (proj1 repair_failure_and_monotonicity 101 w100_gap
              (fst (fetchAllPreviousBlocks 101 w100_gap))
              (snd (fetchAllPreviousBlocks 101 w100_gap))
              [EvFetchBlockHashByNum 101 (Ok "h101");
               EvFetchBlockHashByNum 100 (Err (ErrFetcher "no such block"));
               EvLogError (ErrCouldNotGetBlockData 100 (ErrFetcher "no such block"))]
              100 (ErrFetcher "no such block")) as (H1 & H2).
  - reflexivity.
  - reflexivity.
  - simpl. auto.
  - split; [exact H1|]. split; [exact H2|]. split.
    + apply (proj2 (proj2 (proj1 (proj2 repair_failure_and_monotonicity) 99 w100
                             ltac:(by_compute)))).
      by_compute.
    + apply (proj2 (proj2 repair_failure_and_monotonicity) w100_101 w101).
      apply (repairs_step w100_101 w101 w101 101 "h101"); [reflexivity|].
      apply repairs_done.
Defined.

Lemma repair_error_before_write_witness :
  tracker (snd (fetchAllPreviousBlocks 101 w100_gap)) = cs100 /\
  Z.of_nat (length (blocksQueue (tracker w101))) = 4.
Proof.
  split.
  - apply (proj1 (repair_error_before_write 101 w100_gap ltac:(by_compute))
             (ErrCouldNotGetBlockData 100 (ErrFetcher "no such block"))
             (snd (fetchAllPreviousBlocks 101 w100_gap))).
    reflexivity.
  - apply (proj2 (proj2 (repair_error_before_write 101 w100_101 ltac:(by_compute)))
             "h101" w101).
    reflexivity.
Defined.

Lemma overlap_anchor_witness :
  0 < existing_idx 4 1 1 <= 4 - 1 /\
  exists x, blocksQueue cs100 !! Z.to_nat (existing_idx 4 1 1) = Some x /\
            Block x = 100 /\ Hash x = "h100".
Proof.
  destruct (overlap_anchor 1 1 100 "h100" w100_101)
    as (found & s & e & nqs & evs & Ho & Hyes & _).
  apply Hyes.
  assert (Hrun : fst (hashesOverlapIndexes 1 1 100 "h100" w100_101) = Ok (true, 1, 4, 3))
    by reflexivity.
  rewrite Ho in Hrun. simpl in Hrun. congruence.
Defined.

Lemma fork_detector_witness :
  gotNewBlock 104 w104_1 = (Ok true, w104_1) /\
  fst (forkChanged 104 w104_1) = Ok true.
Proof.
  destruct (proj1 fork_detector Chain Chain_fetcher 104 w104_1 ltac:(reflexivity))
    as (Hgot & _ & Hfork).
  split; [exact Hgot|].
  assert (Hf : fetchBlockHashByNum (Block (getLatestBlockUnsafe (tracker w104_1)))
                 w104_1 = (Ok "x101", w104_2)) by (vm_compute; reflexivity).
  apply (proj2 (proj2 (Hfork _ _ Hf))).
  exists "x101". split; [reflexivity|discriminate].
Defined.

Lemma unchanged_remote_cycle_witness :
  fst (fetchAllPreviousBlocksIfNecessary 0 w104_same) = Ok tt /\
  tracker (snd (fetchAllPreviousBlocksIfNecessary 0 w104_same)) = tracker w104_3 /\
  trace (snd (fetchAllPreviousBlocksIfNecessary 0 w104_same)) =
    [EvFetchLatestBlockNum (Ok 104); EvFetchBlockHashByNum 104 (Ok "h104")].
Proof.
  destruct (unchanged_remote_cycle 0 w104_same
              (snd (fetchLatestBlockNum w104_same))
              (snd (fetchBlockHashByNum 104 (snd (fetchLatestBlockNum w104_same))))
              104 "h104") as (H1 & H2 & H3).
  - reflexivity.
  - reflexivity.
  - reflexivity.
  - reflexivity.
  - rewrite H1. simpl fst. simpl snd. split; [reflexivity|]. split; [exact H2|exact H3].
Defined.

Lemma poll_cycle_callbacks_witness :
  fetchAllPreviousBlocksIfNecessary 3 w101_104 =
    (Ok tt,
     extend w104_3
       [EvNewLatestCallback 102 "h104"; EvNewLatestCallback 103 "h104";
        EvNewLatestCallback 104 "h104"; EvForkCallback 104]).
Proof.
  apply (proj1 (proj2 (proj2 (proj2
           (poll_cycle_callbacks 3 w101_104 w104_1 w104_2 w104_3 104 true "h104"
              ltac:(by_compute) ltac:(reflexivity) ltac:(reflexivity)
              ltac:(reflexivity) ltac:(reflexivity)))))).
  - by_compute.
  - by_compute.
Defined.
